(** * pyludus: a shallow embedding of [process.py] and [ludus.py]

    The two source files are embedded module by module:
    - [Py]: the few notions of the Python runtime the code relies on
      (exceptions, outcomes of a call, [str.join], [str], [str.replace]);
    - [NonBlockingReadingIO]: the polling reader of [process.py];
    - [Popen]: the behaviour of [subprocess.Popen] the code calls into;
    - [Process]: the class [Process] of [process.py];
    - [Ludus]: [Ludus.create_process] of [ludus.py].

    Python objects become records, dictionaries become [gmap string string],
    and a method that mutates [self] or talks to the operating system
    becomes a function in the state-and-exception monad [Process.M]. *)

From Stdlib Require Import ZArith Ascii String List DecimalString.
From stdpp Require Import gmap strings list fin_maps.
Import ListNotations.
Open Scope string_scope.
Open Scope list_scope.
Set Warnings "-register-all".

(** ** Python runtime *)

Module Py.

Definition bytes := list Byte.byte.

(** The exceptions that can travel through the embedded code.  Only
    [ProcessError] is declared by the repository; the others are raised by
    the interpreter or the standard library. *)
Inductive exn : Type :=
| ProcessError (msg : string)
| KeyError (key : string)
| AttributeError (attr : string)
| OSError
| BrokenPipeError
| TimeoutExpired
| ValueError.

(** What a call does: it returns, it raises, or it does not come back
    (blocked for ever in the operating system, or still looping when the
    fuel of a loop is spent). *)
Inductive outcome (A : Type) : Type :=
| Return (a : A)
| Raise (e : exn)
| Diverge.
Arguments Return {A} a.
Arguments Raise {A} e.
Arguments Diverge {A}.

(** [sep.join(parts)] *)
Definition join (sep : string) (parts : list string) : string :=
  String.concat sep parts.

(** [str(z)] for an [int] *)
Definition str_of_int (z : Z) : string :=
  NilZero.string_of_int (Z.to_int z).

(** [s.replace(old, new)] for one-character [old] and [new] *)
Fixpoint replace_char (old new : ascii) (s : string) : string :=
  match s with
  | EmptyString => EmptyString
  | String c rest =>
      String (if Ascii.eqb c old then new else c) (replace_char old new rest)
  end.

(** [d[key]] on a dictionary: a missing key raises [KeyError]. *)
Definition getitem (d : gmap string string) (key : string) : outcome string :=
  match d !! key with
  | Some v => Return v
  | None => Raise (KeyError key)
  end.

(** [d.update(other)]: the keys of [other] win. *)
Definition update (d other : gmap string string) : gmap string string :=
  other ∪ d.

End Py.
Import Py.

(** ** [NonBlockingReadingIO] *)

Module NonBlockingReadingIO.

(** The read end of a pipe as the reader sees it: the bytes that can be
    read now, the chunks the writer will still deliver (one per poll that
    finds the pipe empty), and whether the write end is closed. *)
Record pipe : Type := {
  pending : bytes;
  incoming : list bytes;
  hup : bool;
}.

Record t : Type := {
  f : pipe;
  buffer_size : Z;
}.

Definition default_buffer_size : Z := 512.

(** The writer's next chunk reaches an empty pipe while the reader waits. *)
Definition arrive (p : pipe) : pipe :=
  match pending p, incoming p with
  | [], chunk :: later =>
      {| pending := chunk; incoming := later; hup := hup p |}
  | _, _ => p
  end.

(** The descriptor is reported when there is data to read, or when the
    writer has delivered everything and hung up. *)
Definition readable (p : pipe) : bool :=
  match pending p, incoming p with
  | _ :: _, _ => true
  | [], [] => hup p
  | [], _ :: _ => false
  end.

(** [self._poll.poll(1)]: waits one millisecond for the descriptor; the
    returned list is non-empty (truthy) when the descriptor is reported. *)
Definition poll (p : pipe) : bool * pipe :=
  let p' := arrive p in (readable p', p').

(** [os.read(fd, k)]: at most [k] of the pending bytes; a negative [k] is
    refused by the system call. *)
Definition os_read (p : pipe) (k : Z) : outcome bytes * pipe :=
  if (k <? 0)%Z then (Raise OSError, p)
  else
    let got := take (Z.to_nat k) (pending p) in
    (Return got,
     {| pending := drop (Z.to_nat k) (pending p);
        incoming := incoming p; hup := hup p |}).

Definition with_pipe (io : t) (p : pipe) : t :=
  {| f := p; buffer_size := buffer_size io |}.

(** The write end of the pipe is closed when the writer exits. *)
Definition hang_up (io : t) (closed : bool) : t :=
  with_pipe io
    {| pending := pending (f io); incoming := incoming (f io);
       hup := hup (f io) || closed |}.

(** The loop of the branch [n is None]; one unit of fuel per iteration. *)
Fixpoint read_unbounded (fuel : nat) (io : t) (ret : bytes)
  : option (outcome bytes * t) :=
  match fuel with
  | O => None
  | S fuel' =>
      let '(ready, p) := poll (f io) in
      if ready then
        match os_read p (buffer_size io) with
        | (Return r, p') => read_unbounded fuel' (with_pipe io p') (ret ++ r)
        | (Raise e, p') => Some (Raise e, with_pipe io p')
        | (Diverge, p') => Some (Diverge, with_pipe io p')
        end
      else Some (Return ret, with_pipe io p)
  end.

(** The loop of the branch where [n] is given. *)
Fixpoint read_bounded (fuel : nat) (io : t) (n : Z) (ret : bytes)
  : option (outcome bytes * t) :=
  match fuel with
  | O => None
  | S fuel' =>
      let '(ready, p) := poll (f io) in
      if ready then
        match os_read p (Z.min (buffer_size io) n) with
        | (Return r, p') =>
            read_bounded fuel' (with_pipe io p')
              (n - Z.of_nat (length r))%Z (ret ++ r)
        | (Raise e, p') => Some (Raise e, with_pipe io p')
        | (Diverge, p') => Some (Diverge, with_pipe io p')
        end
      else Some (Return ret, with_pipe io p)
  end.

(** [read(self, n=None)]; [None] as a result means the fuel ran out
    before the loop was left. *)
Definition read (fuel : nat) (n : option Z) (io : t)
  : option (outcome bytes * t) :=
  match n with
  | None => read_unbounded fuel io []
  | Some n => read_bounded fuel io n []
  end.

End NonBlockingReadingIO.

(** ** The operating system and the interpreter around one [Process] *)

Module OS.

(** What the program named by the argument vector does once it runs.  It
    is known to the operating system only; the Python side learns of it
    through [Popen]. *)
Record program : Type := {
  lifetime : option nat;      (* ticks until it exits by itself, if ever *)
  status : Z;                 (* its exit status then *)
  ignores_sigterm : bool;
  term_status : Z;            (* its exit status when SIGTERM ends it: -15
                                 unless it handles the signal *)
  term_delay : nat;           (* ticks from SIGTERM to its exit *)
  kill_delay : nat;           (* ticks from SIGKILL to its death *)
  stdin_room : option nat;    (* [None]: it reads what it is sent;
                                 [Some room]: it does not read, and the
                                 pipe holds [room] bytes *)
  stdout_data : bytes;
  stderr_data : list bytes;   (* written chunk by chunk *)
}.

(** Time is a logical clock: every call into the operating system takes
    one tick, so the child can exit between two calls. *)
Record t : Type := {
  now : nat;
  environ : gmap string string;   (* os.environ *)
  sys_path : list string;         (* sys.path *)
  spawn_ok : nat -> bool;         (* does a spawn at this tick succeed *)
  prog : program;
}.

Definition set_now (w : t) (n : nat) : t :=
  {| now := n; environ := environ w; sys_path := sys_path w;
     spawn_ok := spawn_ok w; prog := prog w |}.

Definition tick (w : t) : t := set_now w (S (now w)).

End OS.

(** ** [subprocess.Popen] *)

Module Popen.

Inductive signal : Type := SIGTERM | SIGKILL.

(** The [Popen] object together with the child it stands for.  [stderr]
    is the pipe handed to [NonBlockingReadingIO] by [Process.open]; the
    reader is the only user of that handle afterwards and holds its
    state. *)
Record t : Type := {
  args : list string;
  env : gmap string string;
  cwd : string;
  exits_at : option nat;      (* tick at which the child is gone *)
  exit_status : Z;
  sigterm_ignored : bool;
  term_status : Z;            (* as in [OS.program] *)
  term_delay : nat;
  kill_delay : nat;
  stdin_room : option nat;
  delivered : list signal;
  returncode : option Z;
  stdin_buffer : bytes;       (* written, not flushed *)
  stdin_sent : bytes;         (* flushed into the pipe *)
  stdout : bytes;             (* written by the child, not read yet *)
  stderr : NonBlockingReadingIO.pipe;
}.

Definition set_returncode (po : t) (rc : option Z) : t :=
  {| args := args po; env := env po; cwd := cwd po;
     exits_at := exits_at po; exit_status := exit_status po;
     sigterm_ignored := sigterm_ignored po; term_status := term_status po;
     term_delay := term_delay po; kill_delay := kill_delay po;
     stdin_room := stdin_room po; delivered := delivered po;
     returncode := rc;
     stdin_buffer := stdin_buffer po; stdin_sent := stdin_sent po;
     stdout := stdout po; stderr := stderr po |}.

Definition set_exit (po : t) (at_ : option nat) (st : Z) (sigs : list signal) : t :=
  {| args := args po; env := env po; cwd := cwd po;
     exits_at := at_; exit_status := st;
     sigterm_ignored := sigterm_ignored po; term_status := term_status po;
     term_delay := term_delay po; kill_delay := kill_delay po;
     stdin_room := stdin_room po; delivered := sigs;
     returncode := returncode po;
     stdin_buffer := stdin_buffer po; stdin_sent := stdin_sent po;
     stdout := stdout po; stderr := stderr po |}.

Definition set_stdin (po : t) (buffered sent : bytes) : t :=
  {| args := args po; env := env po; cwd := cwd po;
     exits_at := exits_at po; exit_status := exit_status po;
     sigterm_ignored := sigterm_ignored po; term_status := term_status po;
     term_delay := term_delay po; kill_delay := kill_delay po;
     stdin_room := stdin_room po; delivered := delivered po;
     returncode := returncode po;
     stdin_buffer := buffered; stdin_sent := sent;
     stdout := stdout po; stderr := stderr po |}.

Definition set_stdout (po : t) (out : bytes) : t :=
  {| args := args po; env := env po; cwd := cwd po;
     exits_at := exits_at po; exit_status := exit_status po;
     sigterm_ignored := sigterm_ignored po; term_status := term_status po;
     term_delay := term_delay po; kill_delay := kill_delay po;
     stdin_room := stdin_room po; delivered := delivered po;
     returncode := returncode po;
     stdin_buffer := stdin_buffer po; stdin_sent := stdin_sent po;
     stdout := out; stderr := stderr po |}.

(** [Popen(args, env=.., cwd=.., stdin=PIPE, stdout=PIPE, stderr=PIPE)] *)
Definition spawn (argv : list string) (e : gmap string string) (dir : string)
    (w : OS.t) : outcome t :=
  if OS.spawn_ok w (OS.now w) then
    let p := OS.prog w in
    Return
      {| args := argv; env := e; cwd := dir;
         exits_at := (fun d => OS.now w + d) <$> OS.lifetime p;
         exit_status := OS.status p;
         sigterm_ignored := OS.ignores_sigterm p;
         term_status := OS.term_status p;
         term_delay := OS.term_delay p;
         kill_delay := OS.kill_delay p;
         stdin_room := OS.stdin_room p;
         delivered := [];
         returncode := None;
         stdin_buffer := []; stdin_sent := [];
         stdout := OS.stdout_data p;
         stderr :=
           {| NonBlockingReadingIO.pending := [];
              NonBlockingReadingIO.incoming := OS.stderr_data p;
              NonBlockingReadingIO.hup := false |} |}
  else Raise OSError.

(** Has the child exited by tick [now]? *)
Definition exited (po : t) (now : nat) : bool :=
  match exits_at po with
  | Some te => (te <=? now)%nat
  | None => false
  end.

(** [poll()]: records and returns the exit status if the child is gone. *)
Definition poll (po : t) (now : nat) : option Z * t :=
  match returncode po with
  | Some c => (Some c, po)
  | None =>
      if exited po now
      then (Some (exit_status po), set_returncode po (Some (exit_status po)))
      else (None, po)
  end.

(** [wait(timeout)]: returns at once when the child is gone, otherwise
    blocks until it exits or the timeout (in ticks) has passed.  The third
    component is the clock after the call. *)
Definition wait (timeout : option nat) (po : t) (now : nat)
  : outcome Z * t * nat :=
  match returncode po with
  | Some c => (Return c, po, now)
  | None =>
      let reaped := set_returncode po (Some (exit_status po)) in
      match exits_at po, timeout with
      | Some te, None => (Return (exit_status po), reaped, Nat.max now te)
      | Some te, Some d =>
          if (te <=? now + d)%nat
          then (Return (exit_status po), reaped, Nat.max now te)
          else (Raise TimeoutExpired, po, now + d)
      | None, Some d => (Raise TimeoutExpired, po, now + d)
      | None, None => (Diverge, po, now)
      end
  end.

(** A signal that ends the child takes effect [delay] ticks after it was
    sent: the child is still there in between.  If the child exits by
    itself before that, it exits as it would have without the signal. *)
Definition strike (po : t) (now delay : nat) (st : Z) (sigs : list signal) : t :=
  match exits_at po with
  | Some te =>
      if (te <=? now + delay)%nat
      then set_exit po (Some te) (exit_status po) sigs
      else set_exit po (Some (now + delay)) st sigs
  | None => set_exit po (Some (now + delay)) st sigs
  end.

(** [send_signal(sig)]: nothing is sent to a child that is gone.  SIGKILL
    ends the child with status -9; SIGTERM is ignored, or ends the child
    with the status the program ends with on SIGTERM. *)
Definition send_signal (sig : signal) (po : t) (now : nat) : t :=
  let '(rc, po1) := poll po now in
  match rc with
  | Some _ => po1
  | None =>
      let sigs := delivered po1 ++ [sig] in
      match sig with
      | SIGKILL => strike po1 now (kill_delay po1) (-9) sigs
      | SIGTERM =>
          if sigterm_ignored po1
          then set_exit po1 (exits_at po1) (exit_status po1) sigs
          else strike po1 now (term_delay po1) (term_status po1) sigs
      end
  end.

Definition terminate := send_signal SIGTERM.
Definition kill := send_signal SIGKILL.

(** [stdin.write(data)] on the buffered writer *)
Definition stdin_write (data : bytes) (po : t) : Z * t :=
  (Z.of_nat (length data), set_stdin po (stdin_buffer po ++ data) (stdin_sent po)).

(** Does the pipe take [more] bytes on top of what it holds? *)
Definition has_room (po : t) (more : nat) : bool :=
  match stdin_room po with
  | None => true
  | Some room => (length (stdin_sent po) + more <=? room)%nat
  end.

(** [stdin.flush()].  With nothing buffered there is nothing to write and
    the call returns.  Otherwise the buffer goes into the pipe: the pipe
    is broken once the child is gone; and when the child does not read
    and the pipe is full, the call blocks, until the child is gone if it
    ever is.  The third component is the clock after the call. *)
Definition stdin_flush (po : t) (now : nat) : outcome unit * t * nat :=
  match stdin_buffer po with
  | [] => (Return tt, po, now)
  | _ :: _ =>
      if exited po now then (Raise BrokenPipeError, po, now)
      else if has_room po (length (stdin_buffer po))
      then (Return tt, set_stdin po [] (stdin_sent po ++ stdin_buffer po), now)
      else
        let fits :=
          match stdin_room po with
          | Some room => room - length (stdin_sent po)
          | None => 0
          end in
        let filled :=
          set_stdin po (drop fits (stdin_buffer po))
            (stdin_sent po ++ take fits (stdin_buffer po)) in
        match exits_at po with
        | Some te => (Raise BrokenPipeError, filled, te)
        | None => (Diverge, filled, now)
        end
  end.

(** A read that has to see the end of the stream blocks until the child
    exits. *)
Definition read_to_eof (po : t) (now : nat) : outcome bytes * t * nat :=
  match exits_at po with
  | Some te => (Return (stdout po), set_stdout po [], Nat.max now te)
  | None => (Diverge, po, now)
  end.

(** [stdout.read(n)] on the buffered reader: [None] and -1 read to the
    end of the stream, a count below -1 is refused. *)
Definition stdout_read (n : option Z) (po : t) (now : nat)
  : outcome bytes * t * nat :=
  match n with
  | Some k =>
      if (k <? -1)%Z then (Raise ValueError, po, now)
      else if (k <? 0)%Z || (length (stdout po) <? Z.to_nat k)%nat
      then read_to_eof po now
      else (Return (take (Z.to_nat k) (stdout po)),
            set_stdout po (drop (Z.to_nat k) (stdout po)), now)
  | None => read_to_eof po now
  end.

Definition newline : Byte.byte := Byte.x0a.

(** The bytes up to and including the first newline, if there is one. *)
Fixpoint first_line (bs : bytes) : option bytes :=
  match bs with
  | [] => None
  | b :: rest =>
      if Byte.eqb b newline then Some [b]
      else (fun l => b :: l) <$> first_line rest
  end.

(** [stdout.readline(limit)] on the buffered reader *)
Definition stdout_readline (limit : option Z) (po : t) (now : nat)
  : outcome bytes * t * nat :=
  let cap (l : bytes) :=
    match limit with
    | Some k => if (k <? 0)%Z then l else take (Z.to_nat k) l
    | None => l
    end in
  let enough :=
    match limit with
    | Some k => (0 <=? k)%Z && (Z.to_nat k <=? length (stdout po))%nat
    | None => false
    end in
  match first_line (stdout po) with
  | Some l =>
      (Return (cap l), set_stdout po (drop (length (cap l)) (stdout po)), now)
  | None =>
      if enough
      then (Return (cap (stdout po)),
            set_stdout po (drop (length (cap (stdout po))) (stdout po)), now)
      else
        match exits_at po with
        | Some te => (Return (cap (stdout po)),
                      set_stdout po (drop (length (cap (stdout po))) (stdout po)),
                      Nat.max now te)
        | None => (Diverge, po, now)
        end
  end.

End Popen.

(** ** [Process] *)

Module Process.

Record t : Type := {
  args : list string;
  cwd : string;
  inherit_env : bool;
  aux_env : option (gmap string string);
  aux_paths : option (list string);
  _process : option Popen.t;
  _logger : list string;          (* the records the logger has emitted *)
  _stderr : option NonBlockingReadingIO.t;
}.

(** The dataclass constructor with its defaults, after [__post_init__]. *)
Definition new (argv : list string) (dir : option string)
    (inherit : option bool) (extra_env : option (gmap string string))
    (extra_paths : option (list string)) : t :=
  {| args := argv;
     cwd := default "/" dir;
     inherit_env := default true inherit;
     aux_env := extra_env;
     aux_paths := extra_paths;
     _process := None;
     _logger := [];
     _stderr := None |}.

Definition set_process (self : t) (po : option Popen.t) : t :=
  {| args := args self; cwd := cwd self; inherit_env := inherit_env self;
     aux_env := aux_env self; aux_paths := aux_paths self;
     _process := po; _logger := _logger self; _stderr := _stderr self |}.

Definition set_stderr (self : t) (io : option NonBlockingReadingIO.t) : t :=
  {| args := args self; cwd := cwd self; inherit_env := inherit_env self;
     aux_env := aux_env self; aux_paths := aux_paths self;
     _process := _process self; _logger := _logger self; _stderr := io |}.

Definition set_logger (self : t) (records : list string) : t :=
  {| args := args self; cwd := cwd self; inherit_env := inherit_env self;
     aux_env := aux_env self; aux_paths := aux_paths self;
     _process := _process self; _logger := records; _stderr := _stderr self |}.

(** The messages of the four [ProcessError]s of the class. *)
Definition msg_already_run : string :=
  "this object has already run once; create a new process object to run".
Definition msg_not_run : string :=
  "no process is running yet; call `self.open()`to spawn a new process".
Definition msg_terminated : string :=
  "process has terminated; create a new object and run again".
Definition msg_not_terminated : string :=
  "process has yet to terminate".

(** *** [create_env] *)

Definition outcome_bind {A B} (m : outcome A) (k : A -> outcome B) : outcome B :=
  match m with
  | Return a => k a
  | Raise e => Raise e
  | Diverge => Diverge
  end.

Definition create_env (self : t) (w : OS.t) : outcome (gmap string string) :=
  let env : gmap string string := ∅ in
  outcome_bind
    (if inherit_env self then
       let env := update env (OS.environ w) in
       outcome_bind (getitem env "PATH") (fun path =>
       Return (<["PATH" := join ":" [join ":" (OS.sys_path w); path]]> env))
     else Return env)
    (fun env =>
       let env :=
         match aux_env self with
         | Some extra => update env extra
         | None => env
         end in
       match aux_paths self with
       | Some paths =>
           outcome_bind (getitem env "PATH") (fun path =>
           Return (<["PATH" := join ":" (paths ++ [path])]> env))
       | None => Return env
       end).

(** *** The monad of the methods

    A method runs on the object and the world around it and leaves both
    changed, also when it raises. *)

Record state : Type := {
  self : t;
  world : OS.t;
}.

Definition M (A : Type) : Type := state -> outcome A * state.

Definition ret {A} (a : A) : M A := fun s => (Return a, s).

Definition bind {A B} (m : M A) (k : A -> M B) : M B :=
  fun s =>
    match m s with
    | (Return a, s') => k a s'
    | (Raise e, s') => (Raise e, s')
    | (Diverge, s') => (Diverge, s')
    end.

Definition raise {A} (e : exn) : M A := fun s => (Raise e, s).

(** [try: body  except ProcessError as e: handler] *)
Definition try_except_ProcessError {A} (body : M A) (handler : string -> M A)
  : M A :=
  fun s =>
    match body s with
    | (Raise (ProcessError msg), s') => handler msg s'
    | r => r
    end.

Declare Scope py_scope.
Delimit Scope py_scope with py.
Notation "x <- m ;; k" := (bind m (fun x => k))
  (at level 100, m at next level, right associativity) : py_scope.
Notation "m ;; k" := (bind m (fun _ => k))
  (at level 100, right associativity) : py_scope.
Local Open Scope py_scope.

(** Calls into the [Popen] object held in [self._process]; an attribute
    of [None] does not exist. *)
Definition with_popen {A} (attr : string)
    (call : Popen.t -> OS.t -> outcome A * Popen.t * OS.t) : M A :=
  fun s =>
    match _process (self s) with
    | None => (Raise (AttributeError attr), s)
    | Some po =>
        let '(r, po', w') := call po (OS.tick (world s)) in
        (r, {| self := set_process (self s) (Some po'); world := w' |})
    end.

Definition popen_poll : M (option Z) :=
  with_popen "poll" (fun po w =>
    let '(rc, po') := Popen.poll po (OS.now w) in (Return rc, po', w)).

Definition popen_wait (timeout : option nat) : M Z :=
  with_popen "wait" (fun po w =>
    let '(r, po', n) := Popen.wait timeout po (OS.now w) in
    (r, po', OS.set_now w n)).

Definition popen_returncode : M (option Z) :=
  fun s =>
    match _process (self s) with
    | None => (Raise (AttributeError "returncode"), s)
    | Some po => (Return (Popen.returncode po), s)
    end.

Definition popen_kill : M unit :=
  with_popen "kill" (fun po w => (Return tt, Popen.kill po (OS.now w), w)).

Definition popen_terminate : M unit :=
  with_popen "terminate" (fun po w =>
    (Return tt, Popen.terminate po (OS.now w), w)).

Definition popen_stdin_write (data : bytes) : M Z :=
  fun s =>
    match _process (self s) with
    | None => (Raise (AttributeError "stdin"), s)
    | Some po =>
        let '(written, po') := Popen.stdin_write data po in
        (Return written,
         {| self := set_process (self s) (Some po'); world := world s |})
    end.

Definition popen_stdin_flush : M unit :=
  with_popen "stdin" (fun po w =>
    let '(r, po', n) := Popen.stdin_flush po (OS.now w) in
    (r, po', OS.set_now w n)).

Definition popen_stdout_read (n : option Z) : M bytes :=
  with_popen "stdout" (fun po w =>
    let '(r, po', n') := Popen.stdout_read n po (OS.now w) in
    (r, po', OS.set_now w n')).

Definition popen_stdout_readline (limit : option Z) : M bytes :=
  with_popen "stdout" (fun po w =>
    let '(r, po', n') := Popen.stdout_readline limit po (OS.now w) in
    (r, po', OS.set_now w n')).

(** [self._stderr.read(n)], with the fuel of the reader's loop.  The
    pipe is seen closed when the child is gone at the time of the call. *)
Definition stderr_read (fuel : nat) (n : option Z) : M bytes :=
  fun s =>
    match _stderr (self s) with
    | None => (Raise (AttributeError "read"), s)
    | Some io =>
        let closed :=
          match _process (self s) with
          | Some po => Popen.exited po (OS.now (world s))
          | None => false
          end in
        match NonBlockingReadingIO.read fuel n
                (NonBlockingReadingIO.hang_up io closed) with
        | Some (r, io') =>
            (r, {| self := set_stderr (self s) (Some io'); world := world s |})
        | None => (Diverge, s)
        end
    end.

Definition logger_error (msg : string) : M unit :=
  fun s =>
    (Return tt,
     {| self := set_logger (self s) (_logger (self s) ++ [msg]);
        world := world s |}).

(** [self._logger.exception(e)]: the record carries the message of [e]. *)
Definition logger_exception (msg : string) : M unit := logger_error msg.

(** *** The methods *)

Definition open : M unit :=
  fun s =>
    match _process (self s) with
    | Some _ => (Raise (ProcessError msg_already_run), s)
    | None =>
        match create_env (self s) (world s) with
        | Return env =>
            let w := OS.tick (world s) in
            match Popen.spawn (args (self s)) env (cwd (self s)) w with
            | Return po =>
                let io :=
                  {| NonBlockingReadingIO.f := Popen.stderr po;
                     NonBlockingReadingIO.buffer_size :=
                       NonBlockingReadingIO.default_buffer_size |} in
                (Return tt,
                 {| self := set_stderr (set_process (self s) (Some po)) (Some io);
                    world := w |})
            | Raise e => (Raise e, {| self := self s; world := w |})
            | Diverge => (Diverge, {| self := self s; world := w |})
            end
        | Raise e => (Raise e, s)
        | Diverge => (Diverge, s)
        end
    end.

Definition is_run : M bool :=
  fun s =>
    (Return (match _process (self s) with Some _ => true | None => false end), s).

Definition check_run : M unit :=
  started <- is_run ;;
  if negb started then raise (ProcessError msg_not_run) else ret tt.

Definition is_alive : M bool :=
  check_run ;;
  rc <- popen_poll ;;
  ret (match rc with None => true | Some _ => false end).

Definition check_alive : M unit :=
  alive <- is_alive ;;
  if negb alive then raise (ProcessError msg_terminated) else ret tt.

Definition wait (timeout : option nat) : M (option Z) :=
  check_run ;;
  popen_wait timeout ;;
  popen_returncode.

Definition run_sync : M (option Z) :=
  open ;;
  try_except_ProcessError (wait None) (fun _ => popen_returncode).

Definition __enter__ : M unit := open.

Definition close (kill : bool) : M unit :=
  check_alive ;;
  if kill then popen_kill else popen_terminate.

Definition write (data : bytes) : M Z :=
  check_alive ;;
  written <- popen_stdin_write data ;;
  popen_stdin_flush ;;
  ret written.

Definition read (n : option Z) : M bytes :=
  check_run ;;
  popen_stdout_read n.

Definition read_error (fuel : nat) (n : option Z) : M bytes :=
  check_run ;;
  stderr_read fuel n.

Definition readline (limit : option Z) : M bytes :=
  check_run ;;
  popen_stdout_readline limit.

(** [__exit__] returns [None] on both paths. *)
Definition __exit__ : M unit :=
  alive <- is_alive ;;
  if negb alive then ret tt
  else
    try_except_ProcessError (close false) (fun msg =>
      logger_error "failed to gracefully close the process" ;;
      logger_exception msg).

Definition return_code : M (option Z) :=
  started <- is_run ;;
  finished <- (if started then alive <- is_alive ;; ret (negb alive)
               else ret false) ;;
  if negb finished then raise (ProcessError msg_not_terminated)
  else popen_poll.

(** [with self: body].  The result of [__exit__] is [None], which is
    falsy, so an exception of the body is raised again after the
    teardown; an exception of the teardown itself would replace it. *)
Definition with_ {A} (body : M A) : M A :=
  __enter__ ;;
  fun s =>
    match body s with
    | (Return a, s1) =>
        match __exit__ s1 with
        | (Return _, s2) => (Return a, s2)
        | (Raise e, s2) => (Raise e, s2)
        | (Diverge, s2) => (Diverge, s2)
        end
    | (Raise e, s1) =>
        match __exit__ s1 with
        | (Return _, s2) => (Raise e, s2)
        | (Raise e', s2) => (Raise e', s2)
        | (Diverge, s2) => (Diverge, s2)
        end
    | (Diverge, s1) => (Diverge, s1)
    end.

End Process.

(** ** [Ludus] *)

Module Ludus.

Record t : Type := {
  path : string;
  script_dirname : string;
  instance_dirname : string;
  archetype_dirname : string;
  codebase_dirname : string;
}.

Definition ends_with_sep (s : string) : bool :=
  match rev (list_ascii_of_string s) with
  | c :: _ => Ascii.eqb c "/"
  | [] => false
  end.

Definition starts_with_sep (s : string) : bool :=
  match s with
  | String c _ => Ascii.eqb c "/"
  | EmptyString => false
  end.

(** [os.path.join(a, b)] of [posixpath] *)
Definition path_join (a b : string) : string :=
  if starts_with_sep b then b
  else if (String.length a =? 0)%nat || ends_with_sep a then a +:+ b
  else a +:+ "/" +:+ b.

Definition script_dir (self : t) : string :=
  path_join (path self) (script_dirname self).

Definition instance_dir (self : t) : string :=
  path_join (path self) (instance_dirname self).

Definition archetype_dir (self : t) : string :=
  path_join (path self) (archetype_dirname self).

Definition codebase_dir (self : t) : string :=
  path_join (path self) (codebase_dirname self).

(** The values a keyword option can carry, by the kinds [form_kwargs]
    tells apart with [is None] and [isinstance].  [VObj] is any other
    object, given by what [str] makes of it. *)
Inductive value : Type :=
| VNone
| VBool (b : bool)
| VStr (s : string)
| VSeq (vs : list value)
| VInt (z : Z)
| VObj (repr : string).

(** The inner function [form_kwargs] of [create_process].  Chaining the
    lists made for the elements of a sequence is [flat_map]; the last
    case of the source, [str(value)], is reached by the values that are
    neither [None], booleans, strings nor sequences. *)
Fixpoint form_kwargs (key : string) (v : value) : list string :=
  match v with
  | VNone => []
  | VBool b => if negb b then [] else ["--" +:+ key]
  | VStr s => ["--" +:+ key; s]
  | VSeq vs => flat_map (form_kwargs key) vs
  | VInt z => ["--" +:+ key; str_of_int z]
  | VObj repr => ["--" +:+ key; repr]
  end.

Definition create_process (self : t) (command : string)
    (args : list string) (kwargs : list (string * value)) : Process.t :=
  let kwargs :=
    flat_map (fun '(k, v) => form_kwargs (replace_char "_" "-" k) v) kwargs in
  Process.new ([command] ++ args ++ kwargs)
    (Some (path self)) (Some true) None
    (Some [script_dir self; "/home/kani/.conda3/envs/apollo/bin"]).

(** [filter(None, names)]: the names that are neither [None] nor empty. *)
Definition truthy_names (names : list (option string)) : list string :=
  flat_map
    (fun name =>
       match name with
       | Some (String c rest) => [String c rest]
       | Some EmptyString => []
       | None => []
       end)
    names.

(** Three of the callers, which fix the options. *)
Definition _create_instance (self : t) (archetype instance : option string)
    (overwrite force : bool) : Process.t :=
  create_process self "instance-create"
    (truthy_names [archetype; instance])
    [("overwrite", VBool overwrite); ("force", VBool force);
     ("instances_dir", VStr (instance_dir self))].

Definition _run_instance (self : t) (instance : string)
    (commands : list string) (verbose dry_run : bool) : Process.t :=
  create_process self "instance-run" (instance :: commands)
    [("verbose", VBool verbose); ("dry_run", VBool dry_run);
     ("instances_dir", VStr (instance_dir self));
     ("codebase", VStr (codebase_dir self))].

Definition _clear_instance (self : t) (instance : string) : Process.t :=
  create_process self "instance-clear" [instance]
    [("yes", VBool true); ("instances_dir", VStr (instance_dir self))].

End Ludus.

(** ** The translation of options, as the description of [create_process]
    words it

    One rule per kind of value; it is compared with [Ludus.form_kwargs]
    below. *)

Module OptionRules.
Import Ludus.

Definition flag (key : string) : string := "--" +:+ key.

Definition hyphenated (key : string) : string := replace_char "_" "-" key.

Inductive entries (key : string) : value -> list string -> Prop :=
| entries_none : entries key VNone []
| entries_false : entries key (VBool false) []
| entries_true : entries key (VBool true) [flag key]
| entries_str s : entries key (VStr s) [flag key; s]
| entries_seq vs out : entries_each key vs out -> entries key (VSeq vs) out
| entries_int z : entries key (VInt z) [flag key; str_of_int z]
| entries_obj repr : entries key (VObj repr) [flag key; repr]
with entries_each (key : string) : list value -> list string -> Prop :=
| each_nil : entries_each key [] []
| each_cons v vs out outs :
    entries key v out -> entries_each key vs outs ->
    entries_each key (v :: vs) (out ++ outs).

Scheme entries_mut := Minimality for entries Sort Prop
  with entries_each_mut := Minimality for entries_each Sort Prop.

(** The entries of all options, in the order of the options. *)
Inductive option_entries : list (string * value) -> list string -> Prop :=
| options_nil : option_entries [] []
| options_cons k v rest out outs :
    entries (hyphenated k) v out -> option_entries rest outs ->
    option_entries ((k, v) :: rest) (out ++ outs).

End OptionRules.

(** ** Concrete configurations used to run the definitions *)

Module Fixtures.

Definition ludus : Ludus.t :=
  {| Ludus.path := "/srv/ludus";
     Ludus.script_dirname := "scripts";
     Ludus.instance_dirname := "instances";
     Ludus.archetype_dirname := "archetypes";
     Ludus.codebase_dirname := "codebase" |}.

(** A program that exits with status 0 after [n] ticks and writes
    nothing. *)
Definition quiet (n : nat) : OS.program :=
  {| OS.lifetime := Some n; OS.status := 0; OS.ignores_sigterm := false;
     OS.term_status := -15; OS.term_delay := 1; OS.kill_delay := 1;
     OS.stdin_room := None;
     OS.stdout_data := []; OS.stderr_data := [] |}.

(** A program that runs until it is signalled. *)
Definition daemon : OS.program :=
  {| OS.lifetime := None; OS.status := 0; OS.ignores_sigterm := false;
     OS.term_status := -15; OS.term_delay := 1; OS.kill_delay := 1;
     OS.stdin_room := None;
     OS.stdout_data := []; OS.stderr_data := [] |}.

Definition machine (p : OS.program) (ok : nat -> bool) : OS.t :=
  {| OS.now := 0;
     OS.environ := <["PATH" := "/usr/bin:/bin"]> (<["HOME" := "/root"]> ∅);
     OS.sys_path := [""; "/usr/lib/python3.8"];
     OS.spawn_ok := ok;
     OS.prog := p |}.

Definition always : nat -> bool := fun _ => true.

(** The process [Ludus.clear_instance] runs. *)
Definition clear_demo : Process.t := Ludus._clear_instance ludus "demo".

(** A process with its own [PATH] in [aux_env] and one extra search path. *)
Definition with_own_path : Process.t :=
  Process.new ["ls"] None None
    (Some (<["PATH" := "/custom/bin"]> (<["LANG" := "C"]> ∅)))
    (Some ["/opt/tools"]).

(** A process that inherits nothing and asks for an extra search path. *)
Definition bare : Process.t :=
  Process.new ["ls"] None (Some false) None (Some ["/opt/tools"]).

(** A reader on a pipe that holds ten bytes, ["0123456789"], with a
    writer that stays connected and sends nothing more. *)
Definition ten_bytes : bytes :=
  [Byte.x30; Byte.x31; Byte.x32; Byte.x33; Byte.x34;
   Byte.x35; Byte.x36; Byte.x37; Byte.x38; Byte.x39].

Definition busy_reader : NonBlockingReadingIO.t :=
  {| NonBlockingReadingIO.f :=
       {| NonBlockingReadingIO.pending := ten_bytes;
          NonBlockingReadingIO.incoming := [];
          NonBlockingReadingIO.hup := false |};
     NonBlockingReadingIO.buffer_size :=
       NonBlockingReadingIO.default_buffer_size |}.

Definition start (p : Process.t) (w : OS.t) : Process.state :=
  {| Process.self := p; Process.world := w |}.

(** [clear_demo] before [open], on a machine where the child exits
    after three ticks. *)
Definition fresh : Process.state :=
  start clear_demo (machine (quiet 3) always).

(** The same object after [run_sync]: the child is gone. *)
Definition finished : Process.state := snd (Process.run_sync fresh).

(** A machine on which the program cannot be spawned before tick 2 (it
    is installed in the meantime, say). *)
Definition not_yet : nat -> bool := fun t => (2 <=? t)%nat.

Definition early : Process.state :=
  start clear_demo (machine (quiet 3) not_yet).

(** [clear_demo] on a machine where the child runs until signalled. *)
Definition serving : Process.state := start clear_demo (machine daemon always).

(** [clear_demo] on a machine where the child exits two ticks after the
    spawn: between the two liveness checks of the teardown. *)
Definition racing : Process.state :=
  start clear_demo (machine (quiet 2) always).

(** A program that writes ["ab"] and then ["c"] to its standard error
    and keeps running. *)
Definition noisy : OS.program :=
  {| OS.lifetime := None; OS.status := 1; OS.ignores_sigterm := false;
     OS.term_status := -15; OS.term_delay := 1; OS.kill_delay := 1;
     OS.stdin_room := None;
     OS.stdout_data := [];
     OS.stderr_data := [[Byte.x61; Byte.x62]; [Byte.x63]] |}.

End Fixtures.

(** ** The lifecycle of the description, read off the object

    The description speaks of the states Unstarted, Running and
    Terminated; the class keeps no such field.  They are recovered from
    [_process] and from whether the child is gone. *)

Module Lifecycle.
Import Process.

Inductive phase : Type := Unstarted | Running | Terminated.

(** The child of [po] is gone at tick [now]: its exit status has been
    recorded, or it has exited without the object knowing yet. *)
Definition gone (po : Popen.t) (now : nat) : bool :=
  match Popen.returncode po with
  | Some _ => true
  | None => Popen.exited po now
  end.

Definition phase_of (s : state) : phase :=
  match _process (self s) with
  | None => Unstarted
  | Some po => if gone po (OS.now (world s)) then Terminated else Running
  end.

(** The state [is_alive] leaves behind on an opened object: one tick has
    passed and the exit status is recorded if the child is gone. *)
Definition polled (s : state) (po : Popen.t) : state :=
  {| self := set_process (self s)
               (Some (snd (Popen.poll po (S (OS.now (world s))))));
     world := OS.tick (world s) |}.

End Lifecycle.

(** ** Statements of the description that are tested against the code *)

Module Described.
Import Process.

(** The PATH of the child is the extra search paths followed by the
    inherited PATH, and nothing else. *)
Definition path_is_extras_then_inherited (p : Process.t) (w : OS.t) : Prop :=
  forall paths inherited,
    inherit_env p = true ->
    aux_paths p = Some paths -> paths <> [] ->
    OS.environ w !! "PATH" = Some inherited ->
    exists env,
      create_env p w = Return env /\
      env !! "PATH" = Some (join ":" (paths ++ [inherited])).

(** The keys of [aux_env], PATH included, win over what the prepending
    of the search paths produced. *)
Definition overlay_wins (p : Process.t) (w : OS.t) : Prop :=
  forall paths extra,
    aux_paths p = Some paths ->
    aux_env p = Some extra ->
    exists env,
      create_env p w = Return env /\
      forall k v, extra !! k = Some v -> env !! k = Some v.

(** A second [open] raises [ProcessError] whatever the first one did. *)
Definition second_open_fails (s : state) : Prop :=
  forall r s1,
    open s = (r, s1) ->
    exists msg, fst (open s1) = Raise (ProcessError msg).

End Described.

(** ** The other builders of [Ludus] and its commands *)

Module Commands.
Import Process Ludus.

(** What a command of [Ludus] can end in besides a value: the two
    exceptions of [ludus.py], the failure of [bytes.decode], and whatever
    comes up from [Process]. *)
Inductive failure : Type :=
| ScriptError (msg : string)
| TypeError (msg : string)
| UnicodeDecodeError
| Uncaught (e : exn).

Inductive result (A : Type) : Type :=
| Done (a : A)
| Failed (f : failure)
| Hang.
Arguments Done {A} a.
Arguments Failed {A} f.
Arguments Hang {A}.

(** The values [_set_config] accepts or refuses.  A float, like any other
    object, is given by what [str] makes of it. *)
Inductive config_value : Type :=
| CNone
| CBool (b : bool)
| CInt (z : Z)
| CFloat (repr : string)
| CStr (s : string)
| COther (repr : string).

(** [str(value)] *)
Definition str_of_config (v : config_value) : string :=
  match v with
  | CNone => "None"
  | CBool b => if b then "True" else "False"
  | CInt z => str_of_int z
  | CFloat repr => repr
  | CStr s => s
  | COther repr => repr
  end.

(** The chain of [isinstance] tests of [_set_config]; a [bool] is an
    [int] for [isinstance]. *)
Definition value_type (v : config_value) : option string :=
  match v with
  | CNone => Some "null"
  | CBool _ => Some "int"
  | CInt _ => Some "int"
  | CFloat _ => Some "float"
  | CStr _ => Some "str"
  | COther _ => None
  end.

Definition _set_config (self : Ludus.t) (instance config key : string)
    (value : config_value) : result Process.t :=
  match value_type value with
  | None => Failed (TypeError ("unsupported value type: " +:+ str_of_config value))
  | Some tag =>
      Done (create_process self "config-set"
              [instance; config; key; str_of_config value]
              [("type", VStr tag); ("write_back", VBool true);
               ("instances_dir", VStr (instance_dir self))])
  end.

Definition _get_config (self : Ludus.t) (instance config : string)
    (keys : list string) : Process.t :=
  create_process self "config-get" (instance :: config :: keys)
    [("instances_dir", VStr (instance_dir self))].

(** The commands run a process of their own on the world and drop it. *)
Definition C (A : Type) : Type := Process.state -> result A * Process.state.

Definition lift {A} (m : M A) : C A :=
  fun s =>
    match m s with
    | (Return a, s') => (Done a, s')
    | (Raise e, s') => (Failed (Uncaught e), s')
    | (Diverge, s') => (Hang, s')
    end.

Definition and_then {A B} (m : C A) (k : A -> C B) : C B :=
  fun s =>
    match m s with
    | (Done a, s') => k a s'
    | (Failed f, s') => (Failed f, s')
    | (Hang, s') => (Hang, s')
    end.

(** [ret != 0] on what [run_sync] and [wait] return *)
Definition nonzero (ret : option Z) : bool :=
  match ret with
  | Some code => negb (code =? 0)%Z
  | None => true
  end.

(** [str(rc)] inside the message *)
Definition str_of_ret (ret : option Z) : string :=
  match ret with
  | Some code => str_of_int code
  | None => "None"
  end.

Section Decoder.

(** [msg.decode()]: the text of the bytes, or nothing when they are not
    valid for the codec. *)
Variable decode : bytes -> option string.

(** [throw_script_error]: the name it is given does not reach the
    message. *)
Definition throw_script_error {A} (name : string) (rc : option Z) (msg : bytes)
  : C A :=
  fun s =>
    match decode msg with
    | Some text =>
        (Failed (ScriptError ("instance-create failed; "
                              +:+ "return code: " +:+ str_of_ret rc +:+ ", "
                              +:+ "error message: " +:+ text)), s)
    | None => (Failed UnicodeDecodeError, s)
    end.

(** The three lines every command ends with:
    [if ret != 0: self.throw_script_error(name, ret, process.read_error())];
    the argument [process.read_error()] is evaluated before the call. *)
Definition check_ret (fuel : nat) (name : string) (ret : option Z) : C unit :=
  if nonzero ret then
    and_then (lift (read_error fuel None)) (throw_script_error name ret)
  else fun s => (Done tt, s).

Definition on_world {A} (p : Process.t) (m : C A) (w : OS.t) : result A * OS.t :=
  let '(r, s) := m {| self := p; world := w |} in (r, world s).

Definition create_instance (fuel : nat) (self : Ludus.t)
    (archetype instance : option string) (overwrite force : bool)
  : OS.t -> result unit * OS.t :=
  on_world (_create_instance self archetype instance overwrite force)
    (and_then (lift run_sync) (check_ret fuel "instance-create")).

(** [proc_fn], when given, is called with the opened process. *)
Definition run_instance (fuel : nat) (self : Ludus.t) (instance : string)
    (commands : list string) (verbose dry_run : bool)
    (proc_fn : option (M unit))
  : OS.t -> result unit * OS.t :=
  on_world (_run_instance self instance commands verbose dry_run)
    (and_then (lift open) (fun _ =>
     and_then (match proc_fn with
               | Some fn => lift fn
               | None => fun s => (Done tt, s)
               end) (fun _ =>
     and_then (lift (wait None)) (check_ret fuel "instance-run")))).

Definition clear_instance (fuel : nat) (self : Ludus.t) (instance : string)
  : OS.t -> result unit * OS.t :=
  on_world (_clear_instance self instance)
    (and_then (lift run_sync) (check_ret fuel "instance-clear")).

Definition set_config (fuel : nat) (self : Ludus.t)
    (instance config key : string) (value : config_value)
  : OS.t -> result unit * OS.t :=
  fun w =>
    match _set_config self instance config key value with
    | Done p =>
        on_world p (and_then (lift run_sync) (check_ret fuel "config-set")) w
    | Failed f => (Failed f, w)
    | Hang => (Hang, w)
    end.

End Decoder.

End Commands.

(** ** Sequences of method calls *)

Module Calls.
Import Process.

(** The methods of [Process] a caller can invoke on an object. *)
Inductive call : Type :=
| Open
| RunSync
| IsAlive
| Wait (timeout : option nat)
| Close (kill : bool)
| Write (data : bytes)
| Read (n : option Z)
| ReadError (fuel : nat) (n : option Z)
| Readline (limit : option Z)
| Exit
| ReturnCode.

(** The object and the world after one call, whatever it returned or
    raised. *)
Definition after (c : call) (s : state) : state :=
  match c with
  | Open => snd (open s)
  | RunSync => snd (run_sync s)
  | IsAlive => snd (is_alive s)
  | Wait timeout => snd (wait timeout s)
  | Close kill => snd (close kill s)
  | Write data => snd (write data s)
  | Read n => snd (read n s)
  | ReadError fuel n => snd (read_error fuel n s)
  | Readline limit => snd (readline limit s)
  | Exit => snd (__exit__ s)
  | ReturnCode => snd (return_code s)
  end.

Definition after_all (cs : list call) (s : state) : state :=
  fold_left (fun s c => after c s) cs s.

(** [po'] is the [Popen] of the same spawn as [po], later: it was started
    with the same arguments, and an exit status recorded in [po] is
    still the one recorded. *)
Definition same_child (po po' : Popen.t) : Prop :=
  Popen.args po' = Popen.args po /\
  Popen.env po' = Popen.env po /\
  Popen.cwd po' = Popen.cwd po /\
  forall c, Popen.returncode po = Some c -> Popen.returncode po' = Some c.

(** [s'] is a later state of the object of [s]. *)
Definition later (s s' : state) : Prop :=
  args (self s') = args (self s) /\
  cwd (self s') = cwd (self s) /\
  inherit_env (self s') = inherit_env (self s) /\
  aux_env (self s') = aux_env (self s) /\
  aux_paths (self s') = aux_paths (self s) /\
  forall po,
    _process (self s) = Some po ->
    exists po', _process (self s') = Some po' /\ same_child po po'.

(** A method keeps the object: whatever state it starts in, the state it
    leaves is a later state of the same object. *)
Definition keeps {A} (m : M A) : Prop := forall s, later s (snd (m s)).

End Calls.

(** ** The entries of an option, leaf by leaf *)

Module Leaves.
Import Ludus.

(** The values of a possibly nested sequence that produce entries, in
    order: everything but [None], [False] and the nesting itself. *)
Fixpoint leaves (v : value) : list value :=
  match v with
  | VNone => []
  | VBool false => []
  | VSeq vs => flat_map leaves vs
  | other => [other]
  end.

(** What follows the flag of a leaf. *)
Definition payload (v : value) : list string :=
  match v with
  | VStr s => [s]
  | VInt z => [str_of_int z]
  | VObj repr => [repr]
  | _ => []
  end.

End Leaves.

(** ** More concrete objects *)

Module Samples.

(** A reader over a pipe given by its parts. *)
Definition reader (pend : bytes) (inc : list bytes) (closed : bool) (size : Z)
  : NonBlockingReadingIO.t :=
  {| NonBlockingReadingIO.f :=
       {| NonBlockingReadingIO.pending := pend;
          NonBlockingReadingIO.incoming := inc;
          NonBlockingReadingIO.hup := closed |};
     NonBlockingReadingIO.buffer_size := size |}.

(** All the bytes a pipe holds or will still receive. *)
Definition stream (io : NonBlockingReadingIO.t) : bytes :=
  NonBlockingReadingIO.pending (NonBlockingReadingIO.f io)
  ++ concat (NonBlockingReadingIO.incoming (NonBlockingReadingIO.f io)).

(** A program that ignores SIGTERM and runs until it is killed. *)
Definition deaf : OS.program :=
  {| OS.lifetime := None; OS.status := 0; OS.ignores_sigterm := true;
     OS.term_status := -15; OS.term_delay := 1; OS.kill_delay := 1;
     OS.stdin_room := None;
     OS.stdout_data := []; OS.stderr_data := [] |}.

(** [clear_demo] before [open], with such a program behind it. *)
Definition stubborn : Process.state :=
  Fixtures.start Fixtures.clear_demo (Fixtures.machine deaf Fixtures.always).

(** ["hello\n"] *)
Definition hello : bytes :=
  [Byte.x68; Byte.x65; Byte.x6c; Byte.x6c; Byte.x6f; Byte.x0a].

(** A program that writes ["hello\n"] to its standard output and exits
    with status 0 after two ticks. *)
Definition greeter : OS.program :=
  {| OS.lifetime := Some 2; OS.status := 0; OS.ignores_sigterm := false;
     OS.term_status := -15; OS.term_delay := 1; OS.kill_delay := 1;
     OS.stdin_room := None;
     OS.stdout_data := hello; OS.stderr_data := [] |}.

Definition greeting : Process.state :=
  Fixtures.start Fixtures.clear_demo (Fixtures.machine greeter Fixtures.always).

(** A program that writes ["boom"] to its standard error and exits with
    status 1 after two ticks. *)
Definition failing : OS.program :=
  {| OS.lifetime := Some 2; OS.status := 1; OS.ignores_sigterm := false;
     OS.term_status := -15; OS.term_delay := 1; OS.kill_delay := 1;
     OS.stdin_room := None;
     OS.stdout_data := [];
     OS.stderr_data := [[Byte.x62; Byte.x6f; Byte.x6f; Byte.x6d]] |}.

(** A decoder for the messages: every byte is a character. *)
Definition latin1 (msg : bytes) : option string :=
  Some (string_of_list_byte msg).

(** A program that runs until it is signalled, handles SIGTERM by
    exiting with status 0 two ticks later, and takes three ticks to die of
    SIGKILL. *)
Definition lingers : OS.program :=
  {| OS.lifetime := None; OS.status := 0; OS.ignores_sigterm := false;
     OS.term_status := 0; OS.term_delay := 2; OS.kill_delay := 3;
     OS.stdin_room := None;
     OS.stdout_data := []; OS.stderr_data := [] |}.

Definition lingering : Process.state :=
  Fixtures.start Fixtures.clear_demo (Fixtures.machine lingers Fixtures.always).

(** A program that runs until it is signalled and never reads its
    standard input, behind a pipe that holds four bytes. *)
Definition idle : OS.program :=
  {| OS.lifetime := None; OS.status := 0; OS.ignores_sigterm := false;
     OS.term_status := -15; OS.term_delay := 1; OS.kill_delay := 1;
     OS.stdin_room := Some 4;
     OS.stdout_data := []; OS.stderr_data := [] |}.

Definition unread : Process.state :=
  Fixtures.start Fixtures.clear_demo (Fixtures.machine idle Fixtures.always).

(** A machine whose environment has no PATH. *)
Definition pathless : OS.t :=
  {| OS.now := 0;
     OS.environ := <["HOME" := "/root"]> ∅;
     OS.sys_path := [""; "/usr/lib/python3.8"];
     OS.spawn_ok := Fixtures.always;
     OS.prog := Fixtures.quiet 3 |}.

End Samples.

(** * Properties *)

Import Process.

(** ** Strings *)

Lemma append_assoc (a b c : string) : (a +:+ b) +:+ c = a +:+ (b +:+ c).
Proof.
  induction a as [|ch a IH]; [reflexivity |].
  change (String ch ((a +:+ b) +:+ c) = String ch (a +:+ b +:+ c)).
  now rewrite IH.
Qed.

Lemma join_cons (sep a : string) (l : list string) :
  l <> [] -> join sep (a :: l) = a +:+ sep +:+ join sep l.
Proof. destruct l; [congruence | reflexivity]. Qed.

Lemma join_snoc (sep x : string) (l : list string) :
  l <> [] -> join sep (l ++ [x]) = join sep l +:+ sep +:+ x.
Proof.
  induction l as [|a l IH]; [congruence | intros _].
  destruct l as [|b l]; [reflexivity |].
  change ((a :: b :: l) ++ [x]) with (a :: ((b :: l) ++ [x])).
  rewrite join_cons by (simpl; congruence).
  rewrite IH by congruence.
  rewrite (join_cons sep a (b :: l)) by congruence.
  now rewrite !append_assoc.
Qed.

(** Joining a list whose last element is itself a joined list gives the
    join of the flattened list. *)
Lemma join_flatten (sep x : string) (l inner : list string) :
  inner <> [] ->
  join sep (l ++ [join sep inner +:+ sep +:+ x]) = join sep (l ++ inner ++ [x]).
Proof.
  intros Hinner. induction l as [|a l IH].
  - rewrite !app_nil_l, join_snoc by assumption. reflexivity.
  - rewrite <- !app_comm_cons.
    rewrite !join_cons, IH; [reflexivity | |].
    + destruct l; [destruct inner |]; simpl; congruence.
    + destruct l; simpl; congruence.
Qed.

(** ** [create_env] *)


(** ** [create_env] *)

Lemma update_empty (m : gmap string string) : update ∅ m = m.
Proof. unfold update. apply (right_id_L ∅ (∪)). Qed.

(** When [aux_env] brings no PATH, the overlay leaves PATH alone. *)
Lemma overlay_keeps_path (p : Process.t) (env : gmap string string) :
  aux_env p = None \/
  (exists extra, aux_env p = Some extra /\ extra !! "PATH" = None) ->
  match aux_env p with Some extra => update env extra | None => env end
    !! "PATH" = env !! "PATH".
Proof.
  intros [-> | (extra & -> & Hno)]; [reflexivity |].
  unfold update. now rewrite lookup_union_r.
Qed.

(** C9. With [inherit_env=False], [aux_paths] given and no PATH in
    [aux_env], [create_env] does not return a mapping: the lookup
    [env["PATH"]] of the prepending step raises [KeyError]. *)
Theorem create_env_without_path_raises (p : Process.t) (w : OS.t)
    (paths : list string) :
  inherit_env p = false ->
  aux_paths p = Some paths ->
  aux_env p = None \/
  (exists extra, aux_env p = Some extra /\ extra !! "PATH" = None) ->
  create_env p w = Raise (KeyError "PATH").
Proof.
  intros Hinh Hpaths Haux.
  pose proof (overlay_keeps_path p ∅ Haux) as Hkeep.
  unfold create_env. rewrite Hinh, Hpaths. cbn [outcome_bind].
  unfold getitem. rewrite Hkeep, lookup_empty. reflexivity.
Qed.

Lemma create_env_without_path_raises_witness :
  create_env Fixtures.bare (Fixtures.machine (Fixtures.quiet 3) Fixtures.always)
  = Raise (KeyError "PATH").
Proof.
  apply (create_env_without_path_raises Fixtures.bare _ ["/opt/tools"]).
  - reflexivity.
  - reflexivity.
  - left. reflexivity.
Defined.

(** C1, as amended.  With [inherit_env=True], a non-empty [aux_paths], a
    PATH in the parent's environment and no PATH in [aux_env], the PATH of
    the returned mapping is the extra search paths in their order, then
    the joined [sys.path], then the inherited PATH; when [sys.path] is not
    empty this is the join of the three lists of entries. *)
Theorem create_env_path_inherited (p : Process.t) (w : OS.t)
    (paths : list string) (inherited : string) :
  inherit_env p = true ->
  aux_paths p = Some paths -> paths <> [] ->
  OS.environ w !! "PATH" = Some inherited ->
  aux_env p = None \/
  (exists extra, aux_env p = Some extra /\ extra !! "PATH" = None) ->
  exists env,
    create_env p w = Return env /\
    env !! "PATH" =
      Some (join ":" (paths ++ [join ":" (OS.sys_path w) +:+ ":" +:+ inherited])) /\
    (OS.sys_path w <> [] ->
     env !! "PATH" = Some (join ":" (paths ++ OS.sys_path w ++ [inherited]))).
Proof.
  intros Hinh Hpaths _ Hpath Haux.
  set (base := <["PATH" := join ":" [join ":" (OS.sys_path w); inherited]]>
                 (OS.environ w)).
  pose proof (overlay_keeps_path p base Haux) as Hkeep.
  unfold create_env. rewrite Hinh, Hpaths, update_empty.
  unfold getitem at 1. rewrite Hpath. cbn [outcome_bind].
  fold base. unfold getitem. rewrite Hkeep.
  unfold base at 1. rewrite lookup_insert_eq. cbn [outcome_bind].
  eexists. split; [reflexivity |].
  rewrite lookup_insert_eq.
  split; [reflexivity |].
  intros Hsys. f_equal.
  change (join ":" [join ":" (OS.sys_path w); inherited])
    with (join ":" (OS.sys_path w) +:+ ":" +:+ inherited).
  now apply join_flatten.
Qed.

Lemma create_env_path_inherited_witness :
  exists env,
    create_env Fixtures.clear_demo
      (Fixtures.machine (Fixtures.quiet 3) Fixtures.always) = Return env /\
    env !! "PATH" =
      Some "/srv/ludus/scripts:/home/kani/.conda3/envs/apollo/bin::/usr/lib/python3.8:/usr/bin:/bin".
Proof.
  destruct (create_env_path_inherited Fixtures.clear_demo
              (Fixtures.machine (Fixtures.quiet 3) Fixtures.always)
              ["/srv/ludus/scripts"; "/home/kani/.conda3/envs/apollo/bin"]
              "/usr/bin:/bin")
    as (env & Henv & Hpath & _).
  - reflexivity.
  - reflexivity.
  - discriminate.
  - reflexivity.
  - left. reflexivity.
  - exists env. split; [exact Henv | exact Hpath].
Defined.

(** C1, as stated, fails on the process [Ludus.clear_instance] builds: the
    entries of [sys.path] stand between the extra search paths and the
    inherited PATH. *)
Lemma create_env_path_counterexample :
  ~ Described.path_is_extras_then_inherited Fixtures.clear_demo
      (Fixtures.machine (Fixtures.quiet 3) Fixtures.always).
Proof.
  intros H.
  destruct (H ["/srv/ludus/scripts"; "/home/kani/.conda3/envs/apollo/bin"]
              "/usr/bin:/bin")
    as (env & Henv & Hpath); try reflexivity; try discriminate.
  vm_compute in Henv. injection Henv as <-.
  vm_compute in Hpath. discriminate.
Qed.

(** C4, as amended.  When both [aux_paths] and [aux_env] are given, the
    overlay comes first and the prepending second: a PATH brought by
    [aux_env] replaces the inherited one and ends up behind the extra
    search paths, and every other key of [aux_env] is in the result with
    the value [aux_env] gives it. *)
Theorem create_env_overlay_then_prepend (p : Process.t) (w : OS.t)
    (paths : list string) (extra : gmap string string) (own : string) :
  aux_paths p = Some paths ->
  aux_env p = Some extra ->
  extra !! "PATH" = Some own ->
  (inherit_env p = true -> is_Some (OS.environ w !! "PATH")) ->
  exists env,
    create_env p w = Return env /\
    env !! "PATH" = Some (join ":" (paths ++ [own])) /\
    forall k v, k <> "PATH" -> extra !! k = Some v -> env !! k = Some v.
Proof.
  intros Hpaths Hextra Hown Hparent.
  assert (exists base, 
    (if inherit_env p then
       outcome_bind (getitem (update ∅ (OS.environ w)) "PATH") (fun path =>
       Return (<["PATH" := join ":" [join ":" (OS.sys_path w); path]]>
                 (update ∅ (OS.environ w))))
     else Return ∅) = Return base) as [base Hbase].
  { destruct (inherit_env p).
    - destruct Hparent as [v Hv]; [reflexivity |].
      rewrite update_empty. unfold getitem. rewrite Hv. cbn [outcome_bind]. eauto.
    - eauto. }
  unfold create_env. rewrite Hbase, Hpaths, Hextra. cbn [outcome_bind].
  assert (update base extra !! "PATH" = Some own) as Hlook
    by (unfold update; now apply lookup_union_Some_l).
  unfold getitem. rewrite Hlook. cbn [outcome_bind].
  eexists. split; [reflexivity |]. split.
  - apply lookup_insert_eq.
  - intros k v Hk Hv. rewrite lookup_insert_ne by congruence.
    unfold update. now apply lookup_union_Some_l.
Qed.

Lemma create_env_overlay_then_prepend_witness :
  exists env,
    create_env Fixtures.with_own_path
      (Fixtures.machine (Fixtures.quiet 3) Fixtures.always) = Return env /\
    env !! "PATH" = Some "/opt/tools:/custom/bin" /\
    env !! "LANG" = Some "C".
Proof.
  destruct (create_env_overlay_then_prepend Fixtures.with_own_path
              (Fixtures.machine (Fixtures.quiet 3) Fixtures.always)
              ["/opt/tools"]
              (<["PATH" := "/custom/bin"]> (<["LANG" := "C"]> ∅))
              "/custom/bin")
    as (env & Henv & Hpath & Hkeys).
  - reflexivity.
  - reflexivity.
  - reflexivity.
  - intros _. exists "/usr/bin:/bin". reflexivity.
  - exists env. split; [exact Henv |]. split; [exact Hpath |].
    apply Hkeys; [discriminate | reflexivity].
Defined.

(** C4, as stated, fails: the PATH of [aux_env] does not win over the
    prepending step, the extra search paths are put in front of it. *)
Lemma create_env_overlay_counterexample :
  ~ Described.overlay_wins Fixtures.with_own_path
      (Fixtures.machine (Fixtures.quiet 3) Fixtures.always).
Proof.
  intros H.
  destruct (H ["/opt/tools"] (<["PATH" := "/custom/bin"]> (<["LANG" := "C"]> ∅)))
    as (env & Henv & Hkeys); try reflexivity.
  specialize (Hkeys "PATH" "/custom/bin" eq_refl).
  vm_compute in Henv. injection Henv as <-.
  vm_compute in Hkeys. discriminate.
Qed.

(** ** [NonBlockingReadingIO.read] *)

(** Without [n] the reader drains the pipe and stops at the first poll
    that reports nothing. *)
Example read_drains :
  NonBlockingReadingIO.read 3 None Fixtures.busy_reader =
  Some (Return Fixtures.ten_bytes,
        NonBlockingReadingIO.with_pipe Fixtures.busy_reader
          {| NonBlockingReadingIO.pending := [];
             NonBlockingReadingIO.incoming := [];
             NonBlockingReadingIO.hup := false |}).
Proof. reflexivity. Qed.

(** [read_error] on a running child hands over what the child has written
    to its standard error so far. *)
Example read_error_collects :
  fst (bind open (fun _ => read_error 4 None)
         (Fixtures.start Fixtures.clear_demo
            (Fixtures.machine Fixtures.noisy Fixtures.always)))
  = Return [Byte.x61; Byte.x62; Byte.x63].
Proof. reflexivity. Qed.

(** With [n] below what is pending the first iteration reads [n] bytes. *)
Example read_bounded_first_iteration :
  NonBlockingReadingIO.read_bounded 1 Fixtures.busy_reader 4 [] = None /\
  NonBlockingReadingIO.os_read
    (NonBlockingReadingIO.f Fixtures.busy_reader) (Z.min 512 4)
  = (Return [Byte.x30; Byte.x31; Byte.x32; Byte.x33],
     {| NonBlockingReadingIO.pending :=
          [Byte.x34; Byte.x35; Byte.x36; Byte.x37; Byte.x38; Byte.x39];
        NonBlockingReadingIO.incoming := [];
        NonBlockingReadingIO.hup := false |}).
Proof. split; reflexivity. Qed.

(** Once the count has reached zero while bytes are pending, every further
    iteration polls a ready descriptor, reads zero bytes and changes
    nothing: no amount of fuel leaves the loop. *)
Lemma read_bounded_stuck (fuel : nat) :
  forall (io : NonBlockingReadingIO.t) (ret : bytes),
    NonBlockingReadingIO.pending (NonBlockingReadingIO.f io) <> [] ->
    (0 <= NonBlockingReadingIO.buffer_size io)%Z ->
    NonBlockingReadingIO.read_bounded fuel io 0 ret = None.
Proof.
  induction fuel as [|fuel IH]; intros io ret Hpending Hsize; [reflexivity |].
  destruct io as [[pend inc h] size]; cbn in Hpending, Hsize.
  destruct pend as [|b pend]; [congruence |].
  cbn [NonBlockingReadingIO.read_bounded NonBlockingReadingIO.poll
       NonBlockingReadingIO.arrive NonBlockingReadingIO.readable
       NonBlockingReadingIO.f NonBlockingReadingIO.pending
       NonBlockingReadingIO.incoming NonBlockingReadingIO.buffer_size].
  rewrite Z.min_r by assumption.
  cbn. change (Z.to_nat 0) with 0%nat.
  rewrite take_0, drop_0, app_nil_r.
  apply IH; cbn; [congruence | assumption].
Qed.

(** C3 at the failing input: ten bytes are pending and four are asked for.
    The first iteration reads the four bytes; after it the loop never
    ends, whatever the fuel. *)
Theorem read_bounded_never_returns :
  forall fuel : nat,
    NonBlockingReadingIO.read fuel (Some 4%Z) Fixtures.busy_reader = None.
Proof.
  intros [|fuel]; [reflexivity |].
  cbn. apply read_bounded_stuck.
  - vm_compute. intros H. discriminate H.
  - vm_compute. intros H. discriminate H.
Qed.

(** ** The lifecycle checks of [Process] *)

Section Checks.

Variable s : state.

Lemma check_run_unstarted :
  _process (self s) = None ->
  check_run s = (Raise (ProcessError msg_not_run), s).
Proof. intros H. unfold check_run, bind, is_run. now rewrite H. Qed.

Lemma check_run_started (po : Popen.t) :
  _process (self s) = Some po -> check_run s = (Return tt, s).
Proof. intros H. unfold check_run, bind, is_run. now rewrite H. Qed.

(** Every method that starts with [check_run] stops there on an object
    that was never opened. *)
Lemma guarded_unstarted {A} (rest : M A) :
  _process (self s) = None ->
  bind check_run (fun _ => rest) s = (Raise (ProcessError msg_not_run), s).
Proof. intros H. unfold bind at 1. now rewrite check_run_unstarted. Qed.

Lemma guarded_started {A} (rest : M A) (po : Popen.t) :
  _process (self s) = Some po ->
  bind check_run (fun _ => rest) s = rest s.
Proof. intros H. unfold bind at 1. now rewrite (check_run_started po). Qed.

Lemma is_alive_started (po : Popen.t) :
  _process (self s) = Some po ->
  is_alive s =
    (Return (negb (Lifecycle.gone po (S (OS.now (world s))))),
     Lifecycle.polled s po).
Proof.
  intros H. unfold is_alive. rewrite (guarded_started _ po H).
  unfold bind, popen_poll, with_popen, Lifecycle.polled, Lifecycle.gone. rewrite H.
  cbn [OS.tick OS.set_now OS.now]. unfold Popen.poll.
  destruct (Popen.returncode po); [reflexivity |].
  destruct (Popen.exited po _); reflexivity.
Qed.

End Checks.

Lemma exited_mono (po : Popen.t) (n m : nat) :
  n <= m -> Popen.exited po n = true -> Popen.exited po m = true.
Proof.
  unfold Popen.exited. destruct (Popen.exits_at po) as [te|]; [| discriminate].
  intros Hnm Hn. apply Nat.leb_le in Hn. apply Nat.leb_le. lia.
Qed.

Lemma gone_mono (po : Popen.t) (n m : nat) :
  n <= m -> Lifecycle.gone po n = true -> Lifecycle.gone po m = true.
Proof.
  unfold Lifecycle.gone. destruct (Popen.returncode po); [reflexivity |].
  apply exited_mono.
Qed.

(** Polling sends nothing to the child and writes nothing to it. *)
Lemma poll_sends_nothing (po : Popen.t) (n : nat) :
  Popen.delivered (snd (Popen.poll po n)) = Popen.delivered po /\
  Popen.stdin_sent (snd (Popen.poll po n)) = Popen.stdin_sent po.
Proof.
  unfold Popen.poll. destruct (Popen.returncode po); [easy |].
  destruct (Popen.exited po n); easy.
Qed.

Lemma check_alive_gone (s : state) (po : Popen.t) :
  _process (self s) = Some po ->
  Lifecycle.gone po (OS.now (world s)) = true ->
  check_alive s = (Raise (ProcessError msg_terminated), Lifecycle.polled s po).
Proof.
  intros Hpo Hgone. unfold check_alive, bind.
  rewrite (is_alive_started s po Hpo).
  rewrite (gone_mono po (OS.now (world s)) (S (OS.now (world s))))
    by (lia || assumption).
  reflexivity.
Qed.

(** C6.  On an object that was never opened, [wait], [is_alive], [read],
    [read_error], [readline] and [write] raise the [ProcessError] that says
    no process is running yet, and change nothing.  Once the child is gone,
    [write] and [close] raise the [ProcessError] that says the process has
    terminated; nothing is written to the child and no signal is sent. *)
Theorem wrong_state_raises (s : state) :
  (_process (self s) = None ->
   (forall timeout, wait timeout s = (Raise (ProcessError msg_not_run), s)) /\
   is_alive s = (Raise (ProcessError msg_not_run), s) /\
   (forall n, read n s = (Raise (ProcessError msg_not_run), s)) /\
   (forall fuel n, read_error fuel n s = (Raise (ProcessError msg_not_run), s)) /\
   (forall limit, readline limit s = (Raise (ProcessError msg_not_run), s)) /\
   (forall data, write data s = (Raise (ProcessError msg_not_run), s))) /\
  (forall po,
     _process (self s) = Some po ->
     Lifecycle.gone po (OS.now (world s)) = true ->
     exists s' po',
       (forall data, write data s = (Raise (ProcessError msg_terminated), s')) /\
       (forall kill, close kill s = (Raise (ProcessError msg_terminated), s')) /\
       _process (self s') = Some po' /\
       Popen.stdin_sent po' = Popen.stdin_sent po /\
       Popen.delivered po' = Popen.delivered po).
Proof.
  split.
  - intros H. repeat split; intros;
      try (apply guarded_unstarted; exact H).
    unfold write, check_alive, is_alive.
    unfold bind at 1 2. now rewrite guarded_unstarted.
  - intros po Hpo Hgone.
    exists (Lifecycle.polled s po), (snd (Popen.poll po (S (OS.now (world s))))).
    pose proof (poll_sends_nothing po (S (OS.now (world s)))) as [Hd Hs].
    repeat split; try assumption.
    + intros data. unfold write, bind at 1.
      now rewrite (check_alive_gone s po Hpo Hgone).
    + intros kill. unfold close, bind.
      now rewrite (check_alive_gone s po Hpo Hgone).
Qed.

Lemma wrong_state_raises_witness :
  is_alive Fixtures.fresh = (Raise (ProcessError msg_not_run), Fixtures.fresh) /\
  fst (close false Fixtures.finished) = Raise (ProcessError msg_terminated).
Proof.
  split.
  - destruct (wrong_state_raises Fixtures.fresh) as [Hbefore _].
    destruct (Hbefore eq_refl) as (_ & Halive & _). exact Halive.
  - destruct (wrong_state_raises Fixtures.finished) as [_ Hafter].
    edestruct Hafter as (s' & po' & _ & Hclose & _);
      [reflexivity | reflexivity |].
    rewrite (Hclose false). reflexivity.
Defined.

(** ** [wait] *)

(** [wait] on an object whose [Popen] has the exit status recorded returns
    it at once. *)
Lemma wait_recorded (s : state) (po : Popen.t) (c : Z) (timeout : option nat) :
  _process (self s) = Some po ->
  Popen.returncode po = Some c ->
  wait timeout s =
    (Return (Some c),
     {| self := set_process (self s) (Some po);
        world := OS.set_now (OS.tick (world s)) (S (OS.now (world s))) |}).
Proof.
  intros Hpo Hrc. unfold wait. rewrite (guarded_started s _ po Hpo).
  unfold bind, popen_wait, with_popen, popen_returncode, Popen.wait.
  rewrite Hpo, Hrc. cbn. now rewrite Hrc.
Qed.

(** [wait] on an object whose child has exited unnoticed records the exit
    status and returns it, whatever the timeout. *)
Lemma wait_exited (s : state) (po : Popen.t) (timeout : option nat) :
  _process (self s) = Some po ->
  Popen.returncode po = None ->
  Popen.exited po (OS.now (world s)) = true ->
  wait timeout s =
    (Return (Some (Popen.exit_status po)),
     {| self := set_process (self s)
                  (Some (Popen.set_returncode po (Some (Popen.exit_status po))));
        world := OS.set_now (OS.tick (world s)) (S (OS.now (world s))) |}).
Proof.
  intros Hpo Hrc Hex. unfold wait. rewrite (guarded_started s _ po Hpo).
  unfold bind, popen_wait, with_popen, popen_returncode, Popen.wait.
  rewrite Hpo, Hrc. unfold Popen.exited in Hex.
  destruct (Popen.exits_at po) as [te|]; [| discriminate].
  apply Nat.leb_le in Hex. cbn [OS.tick OS.set_now OS.now].
  assert (Nat.max (S (OS.now (world s))) te = S (OS.now (world s))) as Hmax by lia.
  destruct timeout as [d|].
  - assert ((te <=? S (OS.now (world s)) + d)%nat = true) as ->
      by (apply Nat.leb_le; lia).
    rewrite Hmax. reflexivity.
  - rewrite Hmax. reflexivity.
Qed.

(** C7.  On an object whose child is gone, two calls of [wait] in a row
    both return, with the same exit code: the code the [Popen] object had
    already recorded in [returncode], or else the status the child exited
    with.  After the first call that code is what [returncode] holds, the
    second call leaves the object as the first left it, and the object is
    in the Terminated state after each. *)
Theorem wait_idempotent_after_exit (s : state) (po : Popen.t)
    (timeout1 timeout2 : option nat) :
  _process (self s) = Some po ->
  Lifecycle.gone po (OS.now (world s)) = true ->
  exists code s1 s2 po1,
    code = match Popen.returncode po with
           | Some recorded => recorded
           | None => Popen.exit_status po
           end /\
    wait timeout1 s = (Return (Some code), s1) /\
    _process (self s1) = Some po1 /\
    Popen.returncode po1 = Some code /\
    Popen.exit_status po1 = Popen.exit_status po /\
    wait timeout2 s1 = (Return (Some code), s2) /\
    self s2 = self s1 /\
    Lifecycle.phase_of s1 = Lifecycle.Terminated /\
    Lifecycle.phase_of s2 = Lifecycle.Terminated.
Proof.
  intros Hpo Hgone. unfold Lifecycle.gone in Hgone.
  destruct (Popen.returncode po) as [c|] eqn:Hrc.
  - eexists c, _, _, po.
    split; [reflexivity |].
    split; [apply (wait_recorded s po c timeout1 Hpo Hrc) |].
    split; [reflexivity |].
    split; [exact Hrc |].
    split; [reflexivity |].
    split; [apply wait_recorded with (po := po); [reflexivity | exact Hrc] |].
    split; [reflexivity |].
    unfold Lifecycle.phase_of, Lifecycle.gone. cbn. rewrite Hrc. split; reflexivity.
  - eexists (Popen.exit_status po), _, _,
      (Popen.set_returncode po (Some (Popen.exit_status po))).
    split; [reflexivity |].
    split; [apply (wait_exited s po timeout1 Hpo Hrc Hgone) |].
    split; [reflexivity |].
    split; [reflexivity |].
    split; [reflexivity |].
    split; [eapply (wait_recorded _ _ _ timeout2); reflexivity |].
    split; [reflexivity |].
    split; reflexivity.
Qed.

Lemma wait_idempotent_after_exit_witness :
  exists s1 s2,
    wait None Fixtures.finished = (Return (Some 0%Z), s1) /\
    wait (Some 5) s1 = (Return (Some 0%Z), s2).
Proof.
  edestruct (wait_idempotent_after_exit Fixtures.finished)
    with (timeout1 := @None nat) (timeout2 := Some 5)
    as (code & s1 & s2 & po1 & Hcode & H1 & _ & _ & _ & H2 & _);
    [reflexivity | reflexivity |].
  exists s1, s2.
  assert (code = 0%Z) as <-; [| split; assumption].
  rewrite Hcode. reflexivity.
Defined.

(** ** [open] *)

(** [create_env] raises nothing but [KeyError]. *)
Lemma create_env_raises_only_KeyError (p : Process.t) (w : OS.t) (e : exn) :
  create_env p w = Raise e -> e = KeyError "PATH".
Proof.
  unfold create_env, getitem.
  destruct (inherit_env p), (aux_env p), (aux_paths p); cbn [outcome_bind];
    repeat match goal with
    | |- context [match ?m !! ?k with _ => _ end] =>
        destruct (m !! k); cbn [outcome_bind]
    end; congruence.
Qed.

(** [open] raises [ProcessError] only on an object that holds a [Popen]. *)
Lemma open_ProcessError_started (s : state) (msg : string) :
  fst (open s) = Raise (ProcessError msg) -> _process (self s) <> None.
Proof.
  unfold open. destruct (_process (self s)); [congruence |].
  destruct (create_env (self s) (world s)) eqn:Henv; cbn.
  - unfold Popen.spawn. destruct (OS.spawn_ok _ _); cbn; congruence.
  - apply create_env_raises_only_KeyError in Henv. congruence.
  - congruence.
Qed.

(** C2, as amended.  After an [open] that spawned the child, a second
    [open] raises the [ProcessError] that says the object has already run,
    and changes nothing.  After an [open] that raised something else (the
    spawn failed, or the environment could not be built), the object holds
    no [Popen] and a second [open] does not raise [ProcessError]: it tries
    to spawn again. *)
Theorem second_open_after_first (s s1 : state) :
  (open s = (Return tt, s1) ->
   open s1 = (Raise (ProcessError msg_already_run), s1)) /\
  (forall e,
     open s = (Raise e, s1) ->
     (forall msg, e <> ProcessError msg) ->
     _process (self s1) = None /\
     forall msg, fst (open s1) <> Raise (ProcessError msg)).
Proof.
  split.
  - unfold open at 1. destruct (_process (self s)); [congruence |].
    destruct (create_env (self s) (world s)); try congruence.
    destruct (Popen.spawn _ _ _ _); try congruence.
    intros [= <-]. reflexivity.
  - intros e Hopen Hnot.
    assert (_process (self s1) = None) as Hnone.
    { revert Hopen. unfold open.
      destruct (_process (self s)) eqn:Hpo.
      - intros [= <- _]. now contradiction (Hnot msg_already_run).
      - destruct (create_env (self s) (world s)).
        + destruct (Popen.spawn _ _ _ _); intros [= _ <-] || intros [= <-];
            try exact Hpo; congruence.
        + intros [= _ <-]. exact Hpo.
        + congruence. }
    split; [exact Hnone |].
    intros msg Hraise. now apply open_ProcessError_started in Hraise.
Qed.

Lemma second_open_after_first_witness :
  (exists s1,
     open Fixtures.fresh = (Return tt, s1) /\
     open s1 = (Raise (ProcessError msg_already_run), s1)) /\
  (exists s1,
     open Fixtures.early = (Raise OSError, s1) /\
     _process (self s1) = None).
Proof.
  split.
  - exists (snd (open Fixtures.fresh)).
    split; [reflexivity |].
    apply (second_open_after_first Fixtures.fresh (snd (open Fixtures.fresh))).
    reflexivity.
  - exists (snd (open Fixtures.early)).
    split; [reflexivity |].
    apply (second_open_after_first Fixtures.early (snd (open Fixtures.early))) with (e := OSError);
      [reflexivity | discriminate].
Defined.

(** C2, as stated, fails: the first [open] raises because the spawn
    fails, and the second [open] on the same object spawns the child and
    returns. *)
Lemma second_open_counterexample :
  ~ Described.second_open_fails Fixtures.early.
Proof.
  intros H.
  destruct (H (Raise OSError) (snd (open Fixtures.early)) eq_refl) as [msg Hmsg].
  vm_compute in Hmsg. discriminate.
Qed.

Example second_open_retries :
  fst (open Fixtures.early) = Raise OSError /\
  fst (open (snd (open Fixtures.early))) = Return tt.
Proof. split; reflexivity. Qed.

(** ** [run_sync] *)

(** What a successful [open] leaves behind: a [Popen] for the program of
    the machine, spawned one tick later, with no exit status yet. *)
Lemma open_spawns (s s1 : state) :
  open s = (Return tt, s1) ->
  exists po,
    _process (self s1) = Some po /\
    Popen.returncode po = None /\
    Popen.exit_status po = OS.status (OS.prog (world s)) /\
    Popen.exits_at po =
      (fun d => S (OS.now (world s)) + d) <$> OS.lifetime (OS.prog (world s)).
Proof.
  unfold open. destruct (_process (self s)); [congruence |].
  destruct (create_env (self s) (world s)); try congruence.
  unfold Popen.spawn. destruct (OS.spawn_ok _ _); [| congruence].
  intros [= <-]. eexists. split; [reflexivity |]. cbn. auto.
Qed.

(** [wait()] without a timeout, before the exit status is recorded: it
    returns the status of a child that exits, and blocks for ever on one
    that does not. *)
Lemma wait_unrecorded (s : state) (po : Popen.t) :
  _process (self s) = Some po ->
  Popen.returncode po = None ->
  match Popen.exits_at po with
  | Some _ => exists s', wait None s = (Return (Some (Popen.exit_status po)), s')
  | None => exists s', wait None s = (Diverge, s')
  end.
Proof.
  intros Hpo Hrc. unfold wait. rewrite (guarded_started s _ po Hpo).
  unfold bind, popen_wait, with_popen, popen_returncode, Popen.wait.
  rewrite Hpo, Hrc.
  destruct (Popen.exits_at po); cbn; eexists; reflexivity.
Qed.

(** The handler of a [try] whose body raises no [ProcessError] is dead. *)
Lemma try_except_not_raised {A} (body : M A) (handler : string -> M A) (s : state) :
  (forall msg, fst (body s) <> Raise (ProcessError msg)) ->
  try_except_ProcessError body handler s = body s.
Proof.
  unfold try_except_ProcessError. destruct (body s) as [[a|e|] s']; cbn; try easy.
  destruct e; try easy. intros H. now contradiction (H msg).
Qed.

(** C5.  [run_sync] is [open] followed by [wait()].  After an [open] that
    succeeded it never ends in a [ProcessError]: it returns the exit
    status of the child when the child exits, and does not return when the
    child never exits. *)
Theorem run_sync_open_then_wait (s : state) :
  run_sync s = bind open (fun _ => wait None) s /\
  forall s1,
    open s = (Return tt, s1) ->
    run_sync s = wait None s1 /\
    (forall msg, fst (run_sync s) <> Raise (ProcessError msg)) /\
    match OS.lifetime (OS.prog (world s)) with
    | Some _ => fst (run_sync s) = Return (Some (OS.status (OS.prog (world s))))
    | None => fst (run_sync s) = Diverge
    end.
Proof.
  assert (forall s1, open s = (Return tt, s1) ->
            run_sync s = wait None s1 /\
            (forall msg, fst (wait None s1) <> Raise (ProcessError msg)) /\
            match OS.lifetime (OS.prog (world s)) with
            | Some _ =>
                fst (wait None s1) = Return (Some (OS.status (OS.prog (world s))))
            | None => fst (wait None s1) = Diverge
            end) as Hmain.
  { intros s1 Hopen.
    destruct (open_spawns s s1 Hopen) as (po & Hpo & Hrc & Hst & Hex).
    pose proof (wait_unrecorded s1 po Hpo Hrc) as Hwait.
    rewrite Hex, Hst in Hwait.
    assert (forall msg, fst (wait None s1) <> Raise (ProcessError msg)) as Hno.
    { destruct (OS.lifetime (OS.prog (world s))); cbn in Hwait;
        destruct Hwait as [s' ->]; cbn; congruence. }
    split; [| split; [exact Hno |]].
    - unfold run_sync, bind at 1. rewrite Hopen.
      now apply try_except_not_raised.
    - destruct (OS.lifetime (OS.prog (world s))); cbn in Hwait;
        destruct Hwait as [s' ->]; reflexivity. }
  split.
  - unfold run_sync, bind.
    destruct (open s) as [[[]|e|] s1] eqn:Hopen; try reflexivity.
    destruct (Hmain s1 eq_refl) as (_ & Hno & _).
    now apply try_except_not_raised.
  - intros s1 Hopen. destruct (Hmain s1 Hopen) as (Heq & Hno & Hres).
    rewrite Heq. auto.
Qed.

Lemma run_sync_open_then_wait_witness :
  fst (run_sync Fixtures.fresh) = Return (Some 0%Z).
Proof.
  destruct (run_sync_open_then_wait Fixtures.fresh) as [_ Hopened].
  destruct (Hopened (snd (open Fixtures.fresh)) eq_refl) as (_ & _ & Hres).
  exact Hres.
Defined.

(** ** Scoped use: [__enter__], the block, [__exit__] *)

(** On an opened object [close] either returns or raises the
    [ProcessError] of [check_alive]; nothing else comes out of it. *)
Lemma close_outcome (s : state) (po : Popen.t) (kill : bool) :
  _process (self s) = Some po ->
  (exists s', close kill s = (Return tt, s')) \/
  (exists s', close kill s = (Raise (ProcessError msg_terminated), s')).
Proof.
  intros Hpo. unfold close, bind, check_alive, bind.
  rewrite (is_alive_started s po Hpo).
  destruct (Lifecycle.gone po _); cbn [negb].
  - right. eexists. reflexivity.
  - left. destruct kill; eexists; reflexivity.
Qed.

(** The state after the two records [__exit__] logs for a failed close. *)
Lemma logged_twice (s : state) (msg : string) :
  bind (logger_error "failed to gracefully close the process")
       (fun _ => logger_exception msg) s =
  (Return tt,
   {| self := set_logger (self s)
                (_logger (self s) ++
                 ["failed to gracefully close the process"; msg]);
      world := world s |}).
Proof.
  unfold bind, logger_exception, logger_error. cbn.
  now rewrite <- app_assoc.
Qed.

(** [__exit__] on an opened object always returns.  It asks [is_alive];
    when the child is gone it does nothing more, and when the child is
    alive it runs [close()], whose [ProcessError] it turns into two log
    records. *)
Lemma exit_on_started (s : state) (po : Popen.t) :
  _process (self s) = Some po ->
  exists alive s1,
    is_alive s = (Return alive, s1) /\
    (alive = false -> __exit__ s = (Return tt, s1)) /\
    (alive = true ->
     (exists s2,
        close false s1 = (Return tt, s2) /\ __exit__ s = (Return tt, s2)) \/
     (exists msg s2,
        close false s1 = (Raise (ProcessError msg), s2) /\
        __exit__ s =
          (Return tt,
           {| self := set_logger (self s2)
                        (_logger (self s2) ++
                         ["failed to gracefully close the process"; msg]);
              world := world s2 |}))).
Proof.
  intros Hpo.
  exists (negb (Lifecycle.gone po (S (OS.now (world s))))), (Lifecycle.polled s po).
  split; [apply (is_alive_started s po Hpo) |].
  assert (__exit__ s =
          (if Lifecycle.gone po (S (OS.now (world s))) then ret tt
           else try_except_ProcessError (close false) (fun msg =>
                  bind (logger_error "failed to gracefully close the process")
                       (fun _ => logger_exception msg)))
            (Lifecycle.polled s po)) as ->.
  { unfold __exit__. unfold bind at 1. rewrite (is_alive_started s po Hpo).
    now destruct (Lifecycle.gone po _). }
  destruct (Lifecycle.gone po _); cbn [negb]; split; try discriminate; intros _.
  - reflexivity.
  - destruct (close_outcome (Lifecycle.polled s po) _ false eq_refl)
      as [[s2 Hclose] | [s2 Hclose]].
    + left. exists s2. split; [exact Hclose |].
      unfold try_except_ProcessError. now rewrite Hclose.
    + right. exists msg_terminated, s2. split; [exact Hclose |].
      unfold try_except_ProcessError. rewrite Hclose. apply logged_twice.
Qed.

(** C8.  A block run under [with] on a process: when [open] succeeded and
    the block came back, with a value or with an exception, the [with]
    statement ends the way the block ended.  In between, [__exit__] asks
    whether the child is alive; if it is, [close()] is run, and a
    [ProcessError] of [close()] ends up as two log records, not as an
    exception. *)
Theorem scoped_use_tears_down {A} (body : M A) (s s0 s1 : state)
    (r : outcome A) (po : Popen.t) :
  open s = (Return tt, s0) ->
  body s0 = (r, s1) ->
  r <> Diverge ->
  _process (self s1) = Some po ->
  fst (with_ body s) = r /\
  exists alive s2,
    is_alive s1 = (Return alive, s2) /\
    (alive = false -> snd (with_ body s) = s2) /\
    (alive = true ->
     (exists s3,
        close false s2 = (Return tt, s3) /\ snd (with_ body s) = s3) \/
     (exists msg s3,
        close false s2 = (Raise (ProcessError msg), s3) /\
        snd (with_ body s) =
          {| self := set_logger (self s3)
                       (_logger (self s3) ++
                        ["failed to gracefully close the process"; msg]);
             world := world s3 |})).
Proof.
  intros Hopen Hbody Hr Hpo.
  destruct (exit_on_started s1 po Hpo) as (alive & s2 & Halive & Hdead & Hlive).
  assert (exists s', __exit__ s1 = (Return tt, s')) as [s' Hexit].
  { destruct alive.
    - destruct (Hlive eq_refl) as [(s3 & _ & ->) | (msg & s3 & _ & ->)]; eauto.
    - rewrite (Hdead eq_refl). eauto. }
  assert (with_ body s = (r, s')) as Hwith.
  { unfold with_, bind, __enter__. rewrite Hopen, Hbody.
    destruct r as [a|e|]; [now rewrite Hexit | now rewrite Hexit | congruence]. }
  rewrite Hwith. cbn [fst snd]. split; [reflexivity |].
  exists alive, s2. split; [exact Halive |]. split.
  - intros Hfalse. specialize (Hdead Hfalse). congruence.
  - intros Htrue.
    destruct (Hlive Htrue) as [(s3 & Hc & He) | (msg & s3 & Hc & He)].
    + left. exists s3. split; [exact Hc | congruence].
    + right. exists msg, s3. split; [exact Hc | congruence].
Qed.

Lemma scoped_use_tears_down_witness :
  fst (with_ (raise (A := unit) (KeyError "missing")) Fixtures.serving)
  = Raise (KeyError "missing").
Proof.
  edestruct (scoped_use_tears_down (raise (A := unit) (KeyError "missing"))
               Fixtures.serving)
    as [Hres _]; [reflexivity | reflexivity | discriminate | reflexivity |].
  exact Hres.
Defined.

(** A child that is still running when the block raises gets SIGTERM, and
    the exception of the block is the one that comes out. *)
Example scoped_use_signals :
  let '(r, s') := with_ (raise (A := unit) (KeyError "missing")) Fixtures.serving in
  r = Raise (KeyError "missing") /\
  Popen.delivered <$> _process (self s') = Some [Popen.SIGTERM] /\
  _logger (self s') = [].
Proof. vm_compute. repeat split. Qed.

(** A child that exits between the liveness check of [__exit__] and the
    one of [close()]: the [ProcessError] of [close()] is logged and the
    block's value is returned. *)
Example scoped_use_logs :
  let '(r, s') := with_ (ret 7%Z) Fixtures.racing in
  r = Return 7%Z /\
  Popen.delivered <$> _process (self s') = Some [] /\
  _logger (self s') = ["failed to gracefully close the process"; msg_terminated].
Proof. vm_compute. repeat split. Qed.

(** ** [Ludus.create_process] *)

Section Options.
Import Ludus OptionRules.

(** Induction on values that reaches the elements of a sequence. *)
Lemma value_nested_ind (P : value -> Prop) :
  P VNone ->
  (forall b, P (VBool b)) ->
  (forall s, P (VStr s)) ->
  (forall vs, Forall P vs -> P (VSeq vs)) ->
  (forall z, P (VInt z)) ->
  (forall repr, P (VObj repr)) ->
  forall v, P v.
Proof.
  intros Hnone Hbool Hstr Hseq Hint Hobj.
  fix IH 1.
  intros [|b|s|vs|z|repr];
    [exact Hnone | apply Hbool | apply Hstr | | apply Hint | apply Hobj].
  apply Hseq. induction vs as [|v vs IHvs]; constructor; [apply IH | exact IHvs].
Qed.

(** [form_kwargs] follows the rules, *)
Lemma form_kwargs_follows_rules (key : string) (v : value) :
  entries key v (form_kwargs key v).
Proof.
  induction v as [|b|s|vs IHvs|z|repr] using value_nested_ind.
  - constructor.
  - destruct b; constructor.
  - constructor.
  - apply entries_seq.
    induction IHvs as [|v vs Hv _ IH]; cbn; constructor; assumption.
  - constructor.
  - constructor.
Qed.

(** and the rules allow nothing else. *)
Lemma rules_determine_form_kwargs (key : string) (v : value) (out : list string) :
  entries key v out -> form_kwargs key v = out.
Proof.
  intros H.
  induction H using entries_mut
    with (P0 := fun vs out => flat_map (form_kwargs key) vs = out);
    try reflexivity.
  - exact IHentries.
  - cbn. congruence.
Qed.

Lemma kwargs_follow_rules (kwargs : list (string * value)) :
  option_entries kwargs
    (flat_map (fun '(k, v) => form_kwargs (replace_char "_" "-" k) v) kwargs).
Proof.
  induction kwargs as [|[k v] rest IH]; cbn; constructor;
    [apply form_kwargs_follows_rules | exact IH].
Qed.

Lemma rules_determine_kwargs (kwargs : list (string * value)) (out : list string) :
  option_entries kwargs out ->
  out = flat_map (fun '(k, v) => form_kwargs (replace_char "_" "-" k) v) kwargs.
Proof.
  induction 1 as [|k v rest out outs Hentry _ IH]; [reflexivity |].
  cbn. apply rules_determine_form_kwargs in Hentry.
  unfold hyphenated in Hentry. congruence.
Qed.

(** C10.  [form_kwargs] translates a value exactly as the rules say, one
    rule per kind of value, and the argument vector of the process that
    [create_process] builds is the command, then the positional
    arguments, then the entries of the options in their order, each
    under its key with underscores turned into hyphens. *)
Theorem create_process_argument_vector (self : Ludus.t) (command : string)
    (args : list string) (kwargs : list (string * value)) :
  (forall key v out, entries key v out <-> form_kwargs key v = out) /\
  exists opts,
    option_entries kwargs opts /\
    (forall opts', option_entries kwargs opts' -> opts' = opts) /\
    Process.args (create_process self command args kwargs)
    = command :: args ++ opts.
Proof.
  split.
  - intros key v out. split.
    + apply rules_determine_form_kwargs.
    + intros <-. apply form_kwargs_follows_rules.
  - eexists. split; [apply kwargs_follow_rules |].
    split; [apply rules_determine_kwargs | reflexivity].
Qed.

End Options.

Example hyphenated_key :
  OptionRules.hyphenated "instances_dir" = "instances-dir".
Proof. reflexivity. Qed.

Example clear_instance_arguments :
  Process.args Fixtures.clear_demo =
  ["instance-clear"; "demo"; "--yes"; "--instances-dir"; "/srv/ludus/instances"].
Proof. reflexivity. Qed.

Example run_instance_arguments :
  Process.args (Ludus._run_instance Fixtures.ludus "demo" ["train"; "eval"] false true) =
  ["instance-run"; "demo"; "train"; "eval"; "--dry-run";
   "--instances-dir"; "/srv/ludus/instances";
   "--codebase"; "/srv/ludus/codebase"].
Proof. reflexivity. Qed.

Example nested_sequence_arguments :
  Ludus.form_kwargs "gpu"
    (Ludus.VSeq [Ludus.VInt 0; Ludus.VStr "a"; Ludus.VNone; Ludus.VBool true;
                 Ludus.VSeq [Ludus.VInt (-4); Ludus.VBool false]]) =
  ["--gpu"; "0"; "--gpu"; "a"; "--gpu"; "--gpu"; "-4"].
Proof. reflexivity. Qed.

(** * Further properties *)

(** ** The loops of [NonBlockingReadingIO.read], step by step *)

Section ReaderSteps.
Import NonBlockingReadingIO.

Lemma reader_eta (io : NonBlockingReadingIO.t) :
  io = Samples.reader (pending (f io)) (incoming (f io)) (hup (f io))
         (buffer_size io).
Proof. now destruct io as [[pend inc h] size]. Qed.

Lemma poll_pending (b : Byte.byte) (pend : bytes) (inc : list bytes) (h : bool) :
  poll {| pending := b :: pend; incoming := inc; hup := h |}
  = (true, {| pending := b :: pend; incoming := inc; hup := h |}).
Proof. reflexivity. Qed.

Lemma poll_arrival (b : Byte.byte) (c : bytes) (inc : list bytes) (h : bool) :
  poll {| pending := []; incoming := (b :: c) :: inc; hup := h |}
  = (true, {| pending := b :: c; incoming := inc; hup := h |}).
Proof. reflexivity. Qed.

Lemma poll_idle (h : bool) :
  poll {| pending := []; incoming := []; hup := h |}
  = (h, {| pending := []; incoming := []; hup := h |}).
Proof. reflexivity. Qed.

(** One iteration of the loop without [n] on a ready descriptor. *)
Lemma read_unbounded_ready (fuel : nat) (pend : bytes) (inc : list bytes)
    (h : bool) (size : Z) (ret : bytes) (p : pipe) :
  poll {| pending := pend; incoming := inc; hup := h |} = (true, p) ->
  (0 <= size)%Z ->
  read_unbounded (S fuel) (Samples.reader pend inc h size) ret
  = read_unbounded fuel
      (Samples.reader (drop (Z.to_nat size) (pending p)) (incoming p) (hup p) size)
      (ret ++ take (Z.to_nat size) (pending p)).
Proof.
  intros Hpoll Hsize.
  cbn [read_unbounded Samples.reader f buffer_size]. rewrite Hpoll.
  unfold os_read. rewrite (proj2 (Z.ltb_ge size 0) Hsize). reflexivity.
Qed.

(** One iteration of the loop with [n] on a ready descriptor. *)
Lemma read_bounded_ready (fuel : nat) (pend : bytes) (inc : list bytes)
    (h : bool) (size n : Z) (ret : bytes) (p : pipe) :
  poll {| pending := pend; incoming := inc; hup := h |} = (true, p) ->
  (0 <= Z.min size n)%Z ->
  read_bounded (S fuel) (Samples.reader pend inc h size) n ret
  = read_bounded fuel
      (Samples.reader (drop (Z.to_nat (Z.min size n)) (pending p))
         (incoming p) (hup p) size)
      (n - Z.of_nat (length (take (Z.to_nat (Z.min size n)) (pending p))))%Z
      (ret ++ take (Z.to_nat (Z.min size n)) (pending p)).
Proof.
  intros Hpoll Hsize.
  cbn [read_bounded Samples.reader f buffer_size]. rewrite Hpoll.
  unfold os_read. rewrite (proj2 (Z.ltb_ge _ 0) Hsize). reflexivity.
Qed.

End ReaderSteps.

(** ** [NonBlockingReadingIO.read] on a pipe whose writer is connected *)

Section ReaderDrains.
Import NonBlockingReadingIO.

Variable size : Z.
Hypothesis size_positive : (1 <= size)%Z.

Lemma take_drop_app (k : nat) (ret l rest : bytes) :
  (ret ++ take k l) ++ drop k l ++ rest = ret ++ l ++ rest.
Proof. now rewrite <- app_assoc, (app_assoc (take k l)), take_drop. Qed.

Lemma read_unbounded_drains_from (fuel : nat) :
  forall (pend : bytes) (inc : list bytes) (ret : bytes),
    Forall (fun c => c <> []) inc ->
    length pend + length (concat inc) < fuel ->
    read_unbounded fuel (Samples.reader pend inc false size) ret
    = Some (Return (ret ++ pend ++ concat inc), Samples.reader [] [] false size).
Proof.
  induction fuel as [|fuel IH]; intros pend inc ret Hne Hlen; [lia |].
  destruct pend as [|b pend]; [destruct inc as [|c inc] |].
  - cbn. now rewrite app_nil_r.
  - inversion Hne as [|? ? Hc Hne']; subst.
    destruct c as [|b c]; [congruence |].
    rewrite (read_unbounded_ready _ _ _ _ _ _ _ (poll_arrival b c inc false))
      by lia.
    cbn [pending incoming hup]. cbn [concat app] in Hlen.
    rewrite IH; [now rewrite take_drop_app | assumption |].
    rewrite length_drop. cbn [length] in *. rewrite length_app in Hlen. lia.
  - rewrite (read_unbounded_ready _ _ _ _ _ _ _ (poll_pending b pend inc false))
      by lia.
    cbn [pending incoming hup].
    rewrite IH; [now rewrite take_drop_app | assumption |].
    rewrite length_drop. cbn [length] in *. lia.
Qed.

(** With [n] at least the number of bytes to come, the count is still
    positive whenever bytes are pending, so the loop with [n] drains the
    pipe as the loop without [n] does. *)
Lemma read_bounded_drains_from (fuel : nat) :
  forall (pend : bytes) (inc : list bytes) (n : Z) (ret : bytes),
    Forall (fun c => c <> []) inc ->
    length pend + length (concat inc) < fuel ->
    (Z.of_nat (length pend + length (concat inc)) <= n)%Z ->
    read_bounded fuel (Samples.reader pend inc false size) n ret
    = Some (Return (ret ++ pend ++ concat inc), Samples.reader [] [] false size).
Proof.
  induction fuel as [|fuel IH]; intros pend inc n ret Hne Hlen Hn; [lia |].
  destruct pend as [|b pend]; [destruct inc as [|c inc] |].
  - cbn. now rewrite app_nil_r.
  - inversion Hne as [|? ? Hc Hne']; subst.
    destruct c as [|b c]; [congruence |].
    cbn [concat app length] in Hlen, Hn. rewrite length_app in Hlen, Hn.
    rewrite (read_bounded_ready _ _ _ _ _ _ _ _ (poll_arrival b c inc false))
      by lia.
    cbn [pending incoming hup].
    rewrite IH; [now rewrite take_drop_app | assumption | |];
      rewrite ?length_drop, ?length_take; cbn [length]; lia.
  - cbn [length] in Hlen, Hn.
    rewrite (read_bounded_ready _ _ _ _ _ _ _ _ (poll_pending b pend inc false))
      by lia.
    cbn [pending incoming hup].
    rewrite IH; [now rewrite take_drop_app | assumption | |];
      rewrite ?length_drop, ?length_take; cbn [length]; lia.
Qed.

End ReaderDrains.

(** X1.  [read()] without [n], on a pipe whose writer stays connected and
    delivers non-empty chunks, returns every byte of the stream, in order,
    and leaves the pipe empty; one unit of fuel beyond the number of
    bytes is enough. *)
Theorem read_drains_open_pipe (io : NonBlockingReadingIO.t) (fuel : nat) :
  NonBlockingReadingIO.hup (NonBlockingReadingIO.f io) = false ->
  Forall (fun c => c <> [])
    (NonBlockingReadingIO.incoming (NonBlockingReadingIO.f io)) ->
  (1 <= NonBlockingReadingIO.buffer_size io)%Z ->
  length (Samples.stream io) < fuel ->
  NonBlockingReadingIO.read fuel None io
  = Some (Return (Samples.stream io),
          Samples.reader [] [] false (NonBlockingReadingIO.buffer_size io)).
Proof.
  intros Hhup Hne Hsize Hfuel. rewrite (reader_eta io) at 1.
  unfold Samples.stream in *. rewrite length_app in Hfuel. rewrite Hhup.
  apply (read_unbounded_drains_from _ Hsize); assumption.
Qed.

Lemma read_drains_open_pipe_witness :
  NonBlockingReadingIO.read 11 None Fixtures.busy_reader
  = Some (Return Fixtures.ten_bytes, Samples.reader [] [] false 512).
Proof.
  apply (read_drains_open_pipe Fixtures.busy_reader 11).
  - reflexivity.
  - constructor.
  - vm_compute. discriminate.
  - vm_compute. lia.
Defined.

(** X2.  [read(n)] with [n] at least the number of bytes of the stream
    returns on the same pipes, with the same bytes: the loop with [n] only
    fails to come back when more than [n] bytes are there. *)
Theorem read_bounded_returns_when_short (io : NonBlockingReadingIO.t)
    (fuel : nat) (n : Z) :
  NonBlockingReadingIO.hup (NonBlockingReadingIO.f io) = false ->
  Forall (fun c => c <> [])
    (NonBlockingReadingIO.incoming (NonBlockingReadingIO.f io)) ->
  (1 <= NonBlockingReadingIO.buffer_size io)%Z ->
  length (Samples.stream io) < fuel ->
  (Z.of_nat (length (Samples.stream io)) <= n)%Z ->
  NonBlockingReadingIO.read fuel (Some n) io
  = Some (Return (Samples.stream io),
          Samples.reader [] [] false (NonBlockingReadingIO.buffer_size io)).
Proof.
  intros Hhup Hne Hsize Hfuel Hn. rewrite (reader_eta io) at 1.
  unfold Samples.stream in *. rewrite length_app in Hfuel, Hn. rewrite Hhup.
  apply (read_bounded_drains_from _ Hsize); assumption.
Qed.

Lemma read_bounded_returns_when_short_witness :
  NonBlockingReadingIO.read 11 (Some 10%Z) Fixtures.busy_reader
  = Some (Return Fixtures.ten_bytes, Samples.reader [] [] false 512).
Proof.
  apply (read_bounded_returns_when_short Fixtures.busy_reader 11 10).
  - reflexivity.
  - constructor.
  - vm_compute. discriminate.
  - vm_compute. lia.
  - vm_compute. discriminate.
Defined.

(** ** What [read] returns and what it leaves *)

Section ReaderConserves.
Import NonBlockingReadingIO.

Lemma poll_keeps_stream (p p' : pipe) (ready : bool) :
  poll p = (ready, p') ->
  pending p' ++ concat (incoming p') = pending p ++ concat (incoming p).
Proof.
  unfold poll, arrive. destruct p as [[|b pend] [|c inc] h]; cbn;
    intros [= _ <-]; reflexivity.
Qed.

Lemma read_unbounded_conserves (fuel : nat) :
  forall (io io' : NonBlockingReadingIO.t) (ret got : bytes),
    read_unbounded fuel io ret = Some (Return got, io') ->
    ret ++ Samples.stream io = got ++ Samples.stream io'.
Proof.
  induction fuel as [|fuel IH]; intros io io' ret got; [discriminate |].
  cbn [read_unbounded].
  destruct (poll (f io)) as [ready p] eqn:Hpoll.
  apply poll_keeps_stream in Hpoll. unfold Samples.stream at 1. rewrite <- Hpoll.
  destruct ready.
  - unfold os_read. destruct (buffer_size io <? 0)%Z; [discriminate |].
    intros Hrest. apply IH in Hrest. rewrite <- Hrest.
    unfold Samples.stream. cbn. now rewrite take_drop_app.
  - intros [= <- <-]. reflexivity.
Qed.

Lemma read_bounded_conserves (fuel : nat) :
  forall (io io' : NonBlockingReadingIO.t) (n : Z) (ret got : bytes),
    read_bounded fuel io n ret = Some (Return got, io') ->
    ret ++ Samples.stream io = got ++ Samples.stream io' /\
    ((0 <= n)%Z -> (Z.of_nat (length got) <= Z.of_nat (length ret) + n)%Z).
Proof.
  induction fuel as [|fuel IH]; intros io io' n ret got; [discriminate |].
  cbn [read_bounded].
  destruct (poll (f io)) as [ready p] eqn:Hpoll.
  apply poll_keeps_stream in Hpoll. unfold Samples.stream at 1. rewrite <- Hpoll.
  destruct ready.
  - unfold os_read. destruct (Z.min (buffer_size io) n <? 0)%Z eqn:Hneg;
      [discriminate |].
    apply Z.ltb_ge in Hneg.
    intros Hrest. apply IH in Hrest. destruct Hrest as [Hstream Hlen]. split.
    + rewrite <- Hstream. unfold Samples.stream. cbn. now rewrite take_drop_app.
    + intros Hn. rewrite length_app, length_take in Hlen. lia.
  - intros [= <- <-]. split; [reflexivity | lia].
Qed.

End ReaderConserves.

(** X3.  When [read] returns, the bytes it returns followed by the bytes
    left in the pipe are the stream as it was: nothing is lost, repeated
    or reordered.  With a count [n >= 0] it returns at most [n] bytes. *)
Theorem read_conserves_stream (io io' : NonBlockingReadingIO.t) (fuel : nat)
    (n : option Z) (got : bytes) :
  NonBlockingReadingIO.read fuel n io = Some (Return got, io') ->
  Samples.stream io = got ++ Samples.stream io' /\
  forall k, n = Some k -> (0 <= k)%Z -> (Z.of_nat (length got) <= k)%Z.
Proof.
  destruct n as [k|]; cbn [NonBlockingReadingIO.read]; intros Hread.
  - apply read_bounded_conserves in Hread. destruct Hread as [Hstream Hlen].
    split; [exact Hstream |]. intros k' [= <-] Hk. specialize (Hlen Hk).
    cbn [length] in Hlen. lia.
  - apply read_unbounded_conserves in Hread.
    split; [exact Hread | discriminate].
Qed.

Lemma read_conserves_stream_witness :
  Fixtures.ten_bytes = Fixtures.ten_bytes ++ Samples.stream (Samples.reader [] [] false 512).
Proof.
  apply (read_conserves_stream Fixtures.busy_reader _ 3 None Fixtures.ten_bytes).
  reflexivity.
Defined.

(** ** [read] on a pipe whose writer is gone *)

Section ReaderHangs.
Import NonBlockingReadingIO.

Variable size : Z.
Hypothesis size_not_negative : (0 <= size)%Z.

Lemma read_unbounded_hangs_from (fuel : nat) :
  forall (pend : bytes) (inc : list bytes) (ret : bytes),
    Forall (fun c => c <> []) inc ->
    read_unbounded fuel (Samples.reader pend inc true size) ret = None.
Proof.
  induction fuel as [|fuel IH]; intros pend inc ret Hne; [reflexivity |].
  destruct pend as [|b pend]; [destruct inc as [|c inc] |].
  - rewrite (read_unbounded_ready _ _ _ _ _ _ _ (poll_idle true)) by assumption.
    cbn [pending incoming hup]. rewrite drop_nil. now apply IH.
  - inversion Hne as [|? ? Hc Hne']; subst.
    destruct c as [|b c]; [congruence |].
    rewrite (read_unbounded_ready _ _ _ _ _ _ _ (poll_arrival b c inc true))
      by assumption.
    now apply IH.
  - rewrite (read_unbounded_ready _ _ _ _ _ _ _ (poll_pending b pend inc true))
      by assumption.
    now apply IH.
Qed.

Lemma read_bounded_hangs_from (fuel : nat) :
  forall (pend : bytes) (inc : list bytes) (n : Z) (ret : bytes),
    Forall (fun c => c <> []) inc ->
    (0 <= n)%Z ->
    read_bounded fuel (Samples.reader pend inc true size) n ret = None.
Proof.
  induction fuel as [|fuel IH]; intros pend inc n ret Hne Hn; [reflexivity |].
  destruct pend as [|b pend]; [destruct inc as [|c inc] |].
  - rewrite (read_bounded_ready _ _ _ _ _ _ _ _ (poll_idle true)) by lia.
    cbn [pending incoming hup]. rewrite drop_nil, take_nil.
    apply IH; [assumption | cbn [length]; lia].
  - inversion Hne as [|? ? Hc Hne']; subst.
    destruct c as [|b c]; [congruence |].
    rewrite (read_bounded_ready _ _ _ _ _ _ _ _ (poll_arrival b c inc true))
      by lia.
    apply IH; [assumption | rewrite length_take; cbn [pending]; lia].
  - rewrite (read_bounded_ready _ _ _ _ _ _ _ _ (poll_pending b pend inc true))
      by lia.
    apply IH; [assumption | rewrite length_take; cbn [pending]; lia].
Qed.

End ReaderHangs.

(** X4.  On a pipe whose writer has hung up, [read] never comes back,
    with or without a count [n >= 0]: the poll reports the descriptor for
    ever and each [os.read] past the last byte returns nothing. *)
Theorem read_hangs_after_hangup (io : NonBlockingReadingIO.t) (n : option Z) :
  NonBlockingReadingIO.hup (NonBlockingReadingIO.f io) = true ->
  Forall (fun c => c <> [])
    (NonBlockingReadingIO.incoming (NonBlockingReadingIO.f io)) ->
  (0 <= NonBlockingReadingIO.buffer_size io)%Z ->
  (forall k, n = Some k -> (0 <= k)%Z) ->
  forall fuel, NonBlockingReadingIO.read fuel n io = None.
Proof.
  intros Hhup Hne Hsize Hn fuel. rewrite (reader_eta io), Hhup.
  destruct n as [k|]; cbn [NonBlockingReadingIO.read].
  - apply read_bounded_hangs_from; auto.
  - apply read_unbounded_hangs_from; auto.
Qed.

Lemma read_hangs_after_hangup_witness :
  NonBlockingReadingIO.read 1000 None
    (NonBlockingReadingIO.hang_up Fixtures.busy_reader true) = None.
Proof.
  apply (read_hangs_after_hangup
           (NonBlockingReadingIO.hang_up Fixtures.busy_reader true) None).
  - reflexivity.
  - constructor.
  - vm_compute. discriminate.
  - discriminate.
Defined.

(** ** [create_env] in closed form *)

(** The mapping [create_env] builds, written out: the inherited variables
    with [sys.path] put in front of PATH, under the variables of
    [aux_env], with the extra search paths put in front of the PATH that
    results. *)
Lemma create_env_closed_form (p : Process.t) (w : OS.t) :
  create_env p w =
  match
    (if inherit_env p then
       (fun inherited =>
          <["PATH" := join ":" (OS.sys_path w) +:+ ":" +:+ inherited]>
            (OS.environ w)) <$> (OS.environ w !! "PATH")
     else Some ∅)
  with
  | None => Raise (KeyError "PATH")
  | Some base =>
      let env := default ∅ (aux_env p) ∪ base in
      match aux_paths p with
      | None => Return env
      | Some paths =>
          match env !! "PATH" with
          | Some path => Return (<["PATH" := join ":" (paths ++ [path])]> env)
          | None => Raise (KeyError "PATH")
          end
      end
  end.
Proof.
  unfold create_env, getitem. rewrite update_empty.
  destruct (inherit_env p).
  - destruct (OS.environ w !! "PATH") as [inherited|]; [| reflexivity].
    cbn [outcome_bind fmap option_fmap option_map].
    change (join ":" [join ":" (OS.sys_path w); inherited])
      with (join ":" (OS.sys_path w) +:+ ":" +:+ inherited).
    destruct (aux_env p) as [extra|]; cbn [default id]; unfold update;
      rewrite ?(left_id_L ∅ (∪));
      (destruct (aux_paths p); [| reflexivity]);
      match goal with
      | |- context [match ?m !! "PATH" with _ => _ end] => now destruct (m !! "PATH")
      end.
  - cbn [outcome_bind].
    destruct (aux_env p) as [extra|]; cbn [default id]; unfold update;
      rewrite ?(left_id_L ∅ (∪));
      (destruct (aux_paths p); [| reflexivity]);
      match goal with
      | |- context [match ?m !! "PATH" with _ => _ end] => now destruct (m !! "PATH")
      end.
Qed.

(** X5.  [create_env] fails in exactly two situations, both with
    [KeyError] on PATH: the parent's environment is inherited and has no
    PATH; or nothing is inherited, extra search paths are given and
    [aux_env] brings no PATH.  In every other configuration it returns a
    mapping. *)
Theorem create_env_raises_exactly (p : Process.t) (w : OS.t) :
  ((inherit_env p = true /\ OS.environ w !! "PATH" = None) \/
   (inherit_env p = false /\ is_Some (aux_paths p) /\
    default (∅ : gmap string string) (aux_env p) !! "PATH" = None) ->
   create_env p w = Raise (KeyError "PATH")) /\
  (~ ((inherit_env p = true /\ OS.environ w !! "PATH" = None) \/
      (inherit_env p = false /\ is_Some (aux_paths p) /\
       default (∅ : gmap string string) (aux_env p) !! "PATH" = None)) ->
   exists env, create_env p w = Return env).
Proof.
  rewrite create_env_closed_form. split.
  - intros [[-> ->] | (-> & [paths ->] & Hextra)]; [reflexivity |].
    cbn zeta. rewrite lookup_union_r by exact Hextra.
    now rewrite lookup_empty.
  - intros Hok. destruct (inherit_env p).
    + destruct (OS.environ w !! "PATH") as [inherited|] eqn:Hpath;
        [| exfalso; apply Hok; left; split; reflexivity].
      cbn [fmap option_fmap option_map]. cbn zeta.
      destruct (aux_paths p); [| eauto].
      match goal with
      | |- context [match ?m !! "PATH" with _ => _ end] =>
          destruct (m !! "PATH") eqn:Hlook; [eauto |]
      end.
      apply lookup_union_None in Hlook. destruct Hlook as [_ Hlook].
      now rewrite lookup_insert_eq in Hlook.
    + cbn zeta. destruct (aux_paths p) as [paths|]; [| eauto].
      match goal with
      | |- context [match ?m !! "PATH" with _ => _ end] =>
          destruct (m !! "PATH") eqn:Hlook; [eauto |]
      end.
      exfalso. apply Hok. right. split; [reflexivity |]. split; [eauto |].
      apply lookup_union_None in Hlook. tauto.
Qed.

Lemma create_env_raises_exactly_witness :
  create_env Fixtures.bare (Fixtures.machine (Fixtures.quiet 3) Fixtures.always)
  = Raise (KeyError "PATH") /\
  exists env,
    create_env Fixtures.with_own_path
      (Fixtures.machine (Fixtures.quiet 3) Fixtures.always) = Return env.
Proof.
  split.
  - apply (create_env_raises_exactly Fixtures.bare _).
    right. split; [reflexivity |]. split; [eexists; reflexivity | reflexivity].
  - apply (create_env_raises_exactly Fixtures.with_own_path _).
    intros [[_ H] | [H _]]; vm_compute in H; discriminate H.
Defined.

(** X6.  Apart from PATH, the mapping [create_env] returns holds exactly
    the variables of [aux_env] and, when the environment is inherited,
    those of the parent, [aux_env] winning where both have a variable. *)
Theorem create_env_other_variables (p : Process.t) (w : OS.t)
    (env : gmap string string) (k : string) :
  create_env p w = Return env ->
  k <> "PATH" ->
  env !! k =
  (default ∅ (aux_env p) ∪ (if inherit_env p then OS.environ w else ∅)) !! k.
Proof.
  rewrite create_env_closed_form. intros Henv Hk.
  assert (forall base : gmap string string,
            match aux_paths p with
            | None => Return (default ∅ (aux_env p) ∪ base)
            | Some paths =>
                match (default ∅ (aux_env p) ∪ base) !! "PATH" with
                | Some path =>
                    Return (<["PATH" := join ":" (paths ++ [path])]>
                              (default ∅ (aux_env p) ∪ base))
                | None => Raise (KeyError "PATH")
                end
            end = Return env ->
            env !! k = (default ∅ (aux_env p) ∪ base) !! k) as Hstep.
  { intros base. destruct (aux_paths p) as [paths|].
    - match goal with
      | |- context [match ?m !! "PATH" with _ => _ end] =>
          destruct (m !! "PATH"); [| discriminate]
      end.
      intros [= <-]. now rewrite lookup_insert_ne by congruence.
    - now intros [= <-]. }
  destruct (inherit_env p).
  - destruct (OS.environ w !! "PATH") as [inherited|]; [| discriminate].
    cbn [fmap option_fmap option_map] in Henv. apply Hstep in Henv.
    rewrite Henv, !lookup_union. now rewrite lookup_insert_ne by congruence.
  - now apply Hstep in Henv.
Qed.

Lemma create_env_other_variables_witness :
  exists env,
    create_env Fixtures.with_own_path
      (Fixtures.machine (Fixtures.quiet 3) Fixtures.always) = Return env /\
    env !! "LANG" = Some "C" /\ env !! "HOME" = Some "/root".
Proof.
  eexists. split; [reflexivity |]. split.
  - rewrite (create_env_other_variables Fixtures.with_own_path
               (Fixtures.machine (Fixtures.quiet 3) Fixtures.always) _ "LANG");
      [reflexivity | reflexivity | discriminate].
  - rewrite (create_env_other_variables Fixtures.with_own_path
               (Fixtures.machine (Fixtures.quiet 3) Fixtures.always) _ "HOME");
      [reflexivity | reflexivity | discriminate].
Defined.

(** ** [return_code] *)

Lemma poll_result (po : Popen.t) (n : nat) :
  fst (Popen.poll po n) =
  match Popen.returncode po with
  | Some c => Some c
  | None => if Popen.exited po n then Some (Popen.exit_status po) else None
  end.
Proof.
  unfold Popen.poll. destruct (Popen.returncode po); [reflexivity |].
  now destruct (Popen.exited po n).
Qed.

Lemma poll_records (po : Popen.t) (n : nat) :
  Lifecycle.gone po n = true ->
  Popen.returncode (snd (Popen.poll po n)) = fst (Popen.poll po n) /\
  fst (Popen.poll po n) =
    Some (default (Popen.exit_status po) (Popen.returncode po)).
Proof.
  unfold Lifecycle.gone, Popen.poll.
  destruct (Popen.returncode po) as [c|] eqn:Hrc; cbn.
  - intros _. now rewrite Hrc.
  - intros ->. cbn. auto.
Qed.

Lemma poll_alive (po : Popen.t) (n : nat) :
  Lifecycle.gone po n = false -> Popen.poll po n = (None, po).
Proof.
  unfold Lifecycle.gone, Popen.poll.
  destruct (Popen.returncode po); [discriminate |]. now intros ->.
Qed.

(** X7.  [return_code] raises the [ProcessError] "process has yet to
    terminate" both on an object that was never opened and on one whose
    child is still running; once the child is gone it returns the exit
    status, the one already recorded if there is one. *)
Theorem return_code_cases (s : state) :
  (_process (self s) = None ->
   return_code s = (Raise (ProcessError msg_not_terminated), s)) /\
  (forall po,
     _process (self s) = Some po ->
     Lifecycle.gone po (S (OS.now (world s))) = false ->
     return_code s
     = (Raise (ProcessError msg_not_terminated), Lifecycle.polled s po)) /\
  (forall po,
     _process (self s) = Some po ->
     Lifecycle.gone po (S (OS.now (world s))) = true ->
     exists s',
       return_code s
       = (Return (Some (default (Popen.exit_status po) (Popen.returncode po))),
          s')).
Proof.
  split; [| split].
  - intros H. unfold return_code, bind, is_run. now rewrite H.
  - intros po Hpo Halive. unfold return_code, bind at 1 2, is_run.
    rewrite Hpo. unfold bind at 1. rewrite (is_alive_started s po Hpo), Halive.
    reflexivity.
  - intros po Hpo Hgone. unfold return_code, bind at 1 2, is_run.
    rewrite Hpo. unfold bind at 1. rewrite (is_alive_started s po Hpo), Hgone.
    cbn [negb ret]. unfold popen_poll, with_popen, Lifecycle.polled.
    cbn [self _process set_process world].
    destruct (poll_records po _ Hgone) as [Hrec Hval].
    set (po1 := snd (Popen.poll po (S (OS.now (world s))))) in *.
    assert (Popen.poll po1 (OS.now (OS.tick (OS.tick (world s))))
            = (Some (default (Popen.exit_status po) (Popen.returncode po)), po1))
      as ->.
    { unfold Popen.poll at 1. now rewrite Hrec, Hval. }
    eexists. reflexivity.
Qed.

Lemma return_code_cases_witness :
  return_code Fixtures.fresh
  = (Raise (ProcessError msg_not_terminated), Fixtures.fresh) /\
  fst (return_code (snd (open Fixtures.serving)))
  = Raise (ProcessError msg_not_terminated) /\
  fst (return_code Fixtures.finished) = Return (Some 0%Z).
Proof.
  destruct (return_code_cases Fixtures.fresh) as (Hnone & _ & _).
  destruct (return_code_cases (snd (open Fixtures.serving))) as (_ & Hrun & _).
  destruct (return_code_cases Fixtures.finished) as (_ & _ & Hdone).
  split; [apply Hnone; reflexivity |]. split.
  - erewrite Hrun; reflexivity.
  - edestruct Hdone as [s' ->]; reflexivity.
Defined.

(** ** [close] and [wait] *)

Lemma check_alive_running (s : state) (po : Popen.t) :
  _process (self s) = Some po ->
  Lifecycle.gone po (S (OS.now (world s))) = false ->
  check_alive s
  = (Return tt,
     {| self := set_process (self s) (Some po); world := OS.tick (world s) |}).
Proof.
  intros Hpo Halive. unfold check_alive, bind.
  rewrite (is_alive_started s po Hpo), Halive. unfold Lifecycle.polled.
  now rewrite (poll_alive po _ Halive).
Qed.

Lemma gone_earlier (po : Popen.t) (n m : nat) :
  n <= m -> Lifecycle.gone po m = false -> Lifecycle.gone po n = false.
Proof.
  intros Hnm Hm. destruct (Lifecycle.gone po n) eqn:Hn; [| reflexivity].
  now rewrite (gone_mono po n m Hnm Hn) in Hm.
Qed.

(** [close] on a child that stays alive through the two checks sends the
    signal at the second tick. *)
Lemma close_running (s : state) (po : Popen.t) (kill : bool) :
  _process (self s) = Some po ->
  Lifecycle.gone po (S (S (OS.now (world s)))) = false ->
  close kill s
  = (Return tt,
     {| self :=
          set_process (self s)
            (Some (Popen.send_signal
                     (if kill then Popen.SIGKILL else Popen.SIGTERM) po
                     (S (S (OS.now (world s))))));
        world := OS.tick (OS.tick (world s)) |}).
Proof.
  intros Hpo Halive. unfold close, bind.
  rewrite (check_alive_running s po Hpo)
    by (apply (gone_earlier po _ (S (S (OS.now (world s))))); [lia | assumption]).
  destruct kill; reflexivity.
Qed.

(** The signal reaches a running child; SIGKILL always ends it, SIGTERM
    unless the child ignores it; either takes its time. *)
Lemma send_signal_running (po : Popen.t) (sig : Popen.signal) (n : nat) :
  Lifecycle.gone po n = false ->
  Popen.send_signal sig po n =
  match sig with
  | Popen.SIGKILL =>
      Popen.strike po n (Popen.kill_delay po) (-9)
        (Popen.delivered po ++ [Popen.SIGKILL])
  | Popen.SIGTERM =>
      if Popen.sigterm_ignored po
      then Popen.set_exit po (Popen.exits_at po) (Popen.exit_status po)
             (Popen.delivered po ++ [Popen.SIGTERM])
      else Popen.strike po n (Popen.term_delay po) (Popen.term_status po)
             (Popen.delivered po ++ [Popen.SIGTERM])
  end.
Proof.
  intros Halive. unfold Popen.send_signal. rewrite (poll_alive po n Halive).
  destruct sig; reflexivity.
Qed.

Lemma strike_until_signalled (po : Popen.t) (n delay : nat) (st : Z)
    (sigs : list Popen.signal) :
  Popen.exits_at po = None ->
  Popen.strike po n delay st sigs = Popen.set_exit po (Some (n + delay)) st sigs.
Proof. intros Hex. unfold Popen.strike. now rewrite Hex. Qed.

Lemma gone_unrecorded (po : Popen.t) (n : nat) :
  Lifecycle.gone po n = false -> Popen.returncode po = None.
Proof. unfold Lifecycle.gone. now destruct (Popen.returncode po). Qed.

Lemma never_gone (po : Popen.t) (n : nat) :
  Popen.returncode po = None -> Popen.exits_at po = None ->
  Lifecycle.gone po n = false.
Proof. unfold Lifecycle.gone, Popen.exited. now intros -> ->. Qed.

(** [wait()] on a child that is on its way out blocks until it is gone. *)
Lemma wait_pending (s : state) (po : Popen.t) (te : nat) :
  _process (self s) = Some po ->
  Popen.returncode po = None ->
  Popen.exits_at po = Some te ->
  wait None s
  = (Return (Some (Popen.exit_status po)),
     {| self := set_process (self s)
                  (Some (Popen.set_returncode po (Some (Popen.exit_status po))));
        world := OS.set_now (OS.tick (world s))
                   (Nat.max (S (OS.now (world s))) te) |}).
Proof.
  intros Hpo Hrc Hex. unfold wait. rewrite (guarded_started s _ po Hpo).
  unfold bind, popen_wait, with_popen, popen_returncode, Popen.wait.
  now rewrite Hpo, Hrc, Hex.
Qed.

(** [wait(timeout)] on such a child returns if the child is gone in time
    and raises [TimeoutExpired] if it is not. *)
Lemma wait_timed (s : state) (po : Popen.t) (te d : nat) :
  _process (self s) = Some po ->
  Popen.returncode po = None ->
  Popen.exits_at po = Some te ->
  wait (Some d) s
  = if (te <=? S (OS.now (world s)) + d)%nat
    then (Return (Some (Popen.exit_status po)),
          {| self := set_process (self s)
                       (Some (Popen.set_returncode po
                                (Some (Popen.exit_status po))));
             world := OS.set_now (OS.tick (world s))
                        (Nat.max (S (OS.now (world s))) te) |})
    else (Raise TimeoutExpired,
          {| self := set_process (self s) (Some po);
             world := OS.set_now (OS.tick (world s))
                        (S (OS.now (world s)) + d) |}).
Proof.
  intros Hpo Hrc Hex. unfold wait. rewrite (guarded_started s _ po Hpo).
  unfold bind, popen_wait, with_popen, popen_returncode, Popen.wait.
  rewrite Hpo, Hrc, Hex. cbn [OS.tick OS.set_now OS.now].
  now destruct (te <=? S (OS.now (world s)) + d)%nat.
Qed.

(** X8.  [close] followed by [wait] on a child that runs until it is
    signalled.  [wait()] without a timeout returns -9 after
    [close(kill=True)], and after [close()] the status the program ends
    with on SIGTERM (-15 unless it handles the signal), provided it does
    not ignore the signal; the object is then in the Terminated state.
    The child is not gone at once: a [wait] with a timeout returns the
    same status when the timeout covers the time the child takes to go,
    and raises [TimeoutExpired] when it does not. *)
Theorem close_then_wait (s : state) (po : Popen.t) (kill : bool) :
  _process (self s) = Some po ->
  Popen.returncode po = None ->
  Popen.exits_at po = None ->
  kill = true \/ Popen.sigterm_ignored po = false ->
  exists s1,
    close kill s = (Return tt, s1) /\
    (exists s2,
       wait None s1
       = (Return (Some (if kill then (-9)%Z else Popen.term_status po)), s2) /\
       Lifecycle.phase_of s2 = Lifecycle.Terminated) /\
    (forall d,
       (if kill then Popen.kill_delay po else Popen.term_delay po) <= S d ->
       fst (wait (Some d) s1)
       = Return (Some (if kill then (-9)%Z else Popen.term_status po))) /\
    (forall d,
       S d < (if kill then Popen.kill_delay po else Popen.term_delay po) ->
       fst (wait (Some d) s1) = Raise TimeoutExpired).
Proof.
  intros Hpo Hrc Hex Hends.
  pose proof (never_gone po (S (S (OS.now (world s)))) Hrc Hex) as Halive.
  pose proof (close_running s po kill Hpo Halive) as Hclose.
  rewrite (send_signal_running po _ _ Halive) in Hclose.
  set (n := S (S (OS.now (world s)))) in *.
  set (delay := if kill then Popen.kill_delay po else Popen.term_delay po).
  set (forced := if kill then (-9)%Z else Popen.term_status po).
  set (po1 := Popen.set_exit po (Some (n + delay)) forced
                (Popen.delivered po ++
                 [if kill then Popen.SIGKILL else Popen.SIGTERM])).
  assert (match (if kill then Popen.SIGKILL else Popen.SIGTERM) with
          | Popen.SIGKILL =>
              Popen.strike po n (Popen.kill_delay po) (-9)
                (Popen.delivered po ++ [Popen.SIGKILL])
          | Popen.SIGTERM =>
              if Popen.sigterm_ignored po
              then Popen.set_exit po (Popen.exits_at po) (Popen.exit_status po)
                     (Popen.delivered po ++ [Popen.SIGTERM])
              else Popen.strike po n (Popen.term_delay po) (Popen.term_status po)
                     (Popen.delivered po ++ [Popen.SIGTERM])
          end = po1) as Hsig.
  { subst po1 delay forced. destruct kill.
    - now rewrite strike_until_signalled.
    - destruct Hends as [? | ->]; [discriminate |].
      now rewrite strike_until_signalled. }
  rewrite Hsig in Hclose.
  set (s1 := {| self := set_process (self s) (Some po1);
                world := OS.tick (OS.tick (world s)) |}) in *.
  assert (Popen.returncode po1 = None) as Hrc1 by exact Hrc.
  assert (Popen.exits_at po1 = Some (n + delay)) as Hex1 by reflexivity.
  exists s1. split; [exact Hclose |]. split; [| split].
  - eexists. split; [apply (wait_pending s1 po1 (n + delay) eq_refl Hrc1 Hex1) |].
    reflexivity.
  - intros d Hd. rewrite (wait_timed s1 po1 (n + delay) d eq_refl Hrc1 Hex1).
    assert ((n + delay <=? S (OS.now (world s1)) + d)%nat = true) as ->
      by (apply Nat.leb_le; cbn; lia).
    reflexivity.
  - intros d Hd. rewrite (wait_timed s1 po1 (n + delay) d eq_refl Hrc1 Hex1).
    assert ((n + delay <=? S (OS.now (world s1)) + d)%nat = false) as ->
      by (apply Nat.leb_gt; cbn; lia).
    reflexivity.
Qed.

Lemma close_then_wait_witness :
  (exists s1 s2,
     close true (snd (open Samples.lingering)) = (Return tt, s1) /\
     wait None s1 = (Return (Some (-9)%Z), s2) /\
     fst (wait (Some 0) s1) = Raise TimeoutExpired) /\
  (exists s1 s2,
     close false (snd (open Samples.lingering)) = (Return tt, s1) /\
     wait None s1 = (Return (Some 0%Z), s2)).
Proof.
  split.
  - edestruct (close_then_wait (snd (open Samples.lingering))) with (kill := true)
      as (s1 & Hclose & (s2 & Hwait & _) & _ & Hlate);
      [reflexivity | reflexivity | reflexivity | left; reflexivity |].
    exists s1, s2. split; [assumption |]. split; [exact Hwait |].
    apply Hlate. vm_compute. lia.
  - edestruct (close_then_wait (snd (open Samples.lingering))) with (kill := false)
      as (s1 & Hclose & (s2 & Hwait & _) & _);
      [reflexivity | reflexivity | reflexivity | right; reflexivity |].
    exists s1, s2. split; [assumption | exact Hwait].
Defined.

Lemma wait_times_out (s : state) (po : Popen.t) (d : nat) :
  _process (self s) = Some po ->
  Popen.returncode po = None ->
  Popen.exits_at po = None ->
  wait (Some d) s
  = (Raise TimeoutExpired,
     {| self := set_process (self s) (Some po);
        world := OS.set_now (OS.tick (world s)) (S (OS.now (world s)) + d) |}).
Proof.
  intros Hpo Hrc Hex. unfold wait. rewrite (guarded_started s _ po Hpo).
  unfold bind, popen_wait, with_popen, Popen.wait. now rewrite Hpo, Hrc, Hex.
Qed.

(** X9.  A child that ignores SIGTERM and never exits by itself: after
    [close()] a [wait] with a timeout raises [TimeoutExpired] and
    [is_alive] still answers true; [close(kill=True)] followed by [wait()]
    then returns -9. *)
Theorem close_ignored_then_killed (s : state) (po : Popen.t) (d : nat) :
  _process (self s) = Some po ->
  Popen.returncode po = None ->
  Popen.exits_at po = None ->
  Popen.sigterm_ignored po = true ->
  exists s1 s2 s3 s4,
    close false s = (Return tt, s1) /\
    wait (Some d) s1 = (Raise TimeoutExpired, s2) /\
    fst (is_alive s2) = Return true /\
    close true s2 = (Return tt, s3) /\
    wait None s3 = (Return (Some (-9)%Z), s4).
Proof.
  intros Hpo Hrc Hex Hign.
  pose proof (close_running s po false Hpo (never_gone po _ Hrc Hex)) as Hclose.
  rewrite (send_signal_running po _ _ (never_gone po _ Hrc Hex)), Hign in Hclose.
  set (po1 := Popen.set_exit po (Popen.exits_at po) (Popen.exit_status po)
                (Popen.delivered po ++ [Popen.SIGTERM])) in *.
  set (s1 := {| self := set_process (self s) (Some po1);
                world := OS.tick (OS.tick (world s)) |}) in *.
  assert (Popen.returncode po1 = None) as Hrc1 by exact Hrc.
  assert (Popen.exits_at po1 = None) as Hex1 by exact Hex.
  pose proof (wait_times_out s1 po1 d eq_refl Hrc1 Hex1) as Hwait.
  match type of Hwait with _ = (_, ?s2') => set (s2 := s2') in * end.
  pose proof (close_running s2 po1 true eq_refl (never_gone po1 _ Hrc1 Hex1))
    as Hkill.
  rewrite (send_signal_running po1 _ _ (never_gone po1 _ Hrc1 Hex1)) in Hkill.
  rewrite (strike_until_signalled po1 _ _ _ _ Hex1) in Hkill.
  match type of Hkill with _ = (_, ?s3') => set (s3 := s3') in * end.
  assert (exists s4, wait None s3 = (Return (Some (-9)%Z), s4)) as [s4 Hwait'].
  { eexists. eapply (wait_pending s3 _ _ eq_refl); [exact Hrc1 | reflexivity]. }
  exists s1, s2, s3, s4. repeat split; try assumption.
  rewrite (is_alive_started s2 po1 eq_refl).
  now rewrite (never_gone po1 _ Hrc1 Hex1).
Qed.

Lemma close_ignored_then_killed_witness :
  exists s1 s2 s3 s4,
    close false (snd (open Samples.stubborn)) = (Return tt, s1) /\
    wait (Some 100) s1 = (Raise TimeoutExpired, s2) /\
    fst (is_alive s2) = Return true /\
    close true s2 = (Return tt, s3) /\
    wait None s3 = (Return (Some (-9)%Z), s4).
Proof.
  eapply (close_ignored_then_killed (snd (open Samples.stubborn))); reflexivity.
Defined.

(** ** [write] *)

Lemma gone_exited (po : Popen.t) (n : nat) :
  Lifecycle.gone po n = false -> Popen.exited po n = false.
Proof. unfold Lifecycle.gone. now destruct (Popen.returncode po). Qed.

Lemma has_room_less (po : Popen.t) (a b : nat) :
  a <= b -> Popen.has_room po b = true -> Popen.has_room po a = true.
Proof.
  unfold Popen.has_room. destruct (Popen.stdin_room po) as [room|]; [| reflexivity].
  intros Hab Hb. apply Nat.leb_le in Hb. apply Nat.leb_le. lia.
Qed.

(** What the flush of [write] does to a child that is there and whose
    pipe takes the data: everything buffered is sent. *)
Lemma flush_sends (po : Popen.t) (n : nat) :
  Popen.exited po n = false ->
  Popen.has_room po (length (Popen.stdin_buffer po)) = true ->
  exists po',
    Popen.stdin_flush po n = (Return tt, po', n) /\
    Popen.stdin_sent po' = Popen.stdin_sent po ++ Popen.stdin_buffer po /\
    Popen.stdin_buffer po' = [] /\
    Popen.exits_at po' = Popen.exits_at po /\
    Popen.returncode po' = Popen.returncode po /\
    Popen.stdin_room po' = Popen.stdin_room po.
Proof.
  intros Hex Hroom. unfold Popen.stdin_flush.
  destruct (Popen.stdin_buffer po) as [|b rest] eqn:Hbuf.
  - exists po. rewrite app_nil_r. auto 6.
  - rewrite Hex, Hroom. eexists. split; [reflexivity |]. cbn. auto 6.
Qed.

(** [write] on a child that stays alive through the check and the flush
    and whose pipe takes the data. *)
Lemma write_running (s : state) (po : Popen.t) (data : bytes) :
  _process (self s) = Some po ->
  Lifecycle.gone po (S (S (OS.now (world s)))) = false ->
  Popen.has_room po (length (Popen.stdin_buffer po ++ data)) = true ->
  exists po',
    write data s
    = (Return (Z.of_nat (length data)),
       {| self := set_process (self s) (Some po');
          world := OS.set_now (OS.tick (OS.tick (world s)))
                     (S (S (OS.now (world s)))) |}) /\
    Popen.stdin_sent po' = Popen.stdin_sent po ++ Popen.stdin_buffer po ++ data /\
    Popen.stdin_buffer po' = [] /\
    Popen.exits_at po' = Popen.exits_at po /\
    Popen.returncode po' = Popen.returncode po /\
    Popen.stdin_room po' = Popen.stdin_room po.
Proof.
  intros Hpo Halive Hroom.
  set (po0 := Popen.set_stdin po (Popen.stdin_buffer po ++ data)
                (Popen.stdin_sent po)).
  destruct (flush_sends po0 (S (S (OS.now (world s)))))
    as (po' & Hflush & Hsent & Hbuf & Hex & Hrc & Hrm).
  { apply (gone_exited po _ Halive). }
  { exact Hroom. }
  exists po'. split; [| now repeat split].
  unfold write, bind.
  rewrite (check_alive_running s po Hpo)
    by (apply (gone_earlier po _ (S (S (OS.now (world s))))); [lia | assumption]).
  unfold popen_stdin_write, popen_stdin_flush, with_popen, Popen.stdin_write.
  cbn [self world _process set_process OS.tick OS.set_now OS.now].
  fold po0. now rewrite Hflush.
Qed.

Lemma gone_same (po po' : Popen.t) (n : nat) :
  Popen.exits_at po' = Popen.exits_at po ->
  Popen.returncode po' = Popen.returncode po ->
  Lifecycle.gone po' n = Lifecycle.gone po n.
Proof.
  intros Hex Hrc. unfold Lifecycle.gone, Popen.exited. now rewrite Hex, Hrc.
Qed.

(** X10.  Two [write]s on a child that stays alive and takes the data (it
    reads its standard input, or the pipe has room for both) return the
    lengths of their data, and the child's standard input has received the
    first data and then the second, after what it had received before;
    nothing is left in the buffer. *)
Theorem writes_arrive_in_order (s : state) (po : Popen.t) (d1 d2 : bytes) :
  _process (self s) = Some po ->
  Popen.stdin_buffer po = [] ->
  Lifecycle.gone po (4 + OS.now (world s)) = false ->
  Popen.has_room po (length d1 + length d2) = true ->
  exists s1 s2 po2,
    write d1 s = (Return (Z.of_nat (length d1)), s1) /\
    write d2 s1 = (Return (Z.of_nat (length d2)), s2) /\
    _process (self s2) = Some po2 /\
    Popen.stdin_sent po2 = Popen.stdin_sent po ++ d1 ++ d2 /\
    Popen.stdin_buffer po2 = [].
Proof.
  intros Hpo Hbuf Halive Hroom.
  assert (Lifecycle.gone po (S (S (OS.now (world s)))) = false) as Halive2
    by (apply (gone_earlier po _ (4 + OS.now (world s))); [lia | assumption]).
  destruct (write_running s po d1 Hpo Halive2)
    as (po1 & Hw1 & Hsent1 & Hbuf1 & Hex1 & Hrc1 & Hrm1).
  { rewrite Hbuf. cbn [app]. apply (has_room_less po _ _ (Nat.le_add_r _ _) Hroom). }
  match type of Hw1 with _ = (_, ?s1') => set (s1 := s1') in * end.
  destruct (write_running s1 po1 d2 eq_refl)
    as (po2 & Hw2 & Hsent2 & Hbuf2 & _).
  { rewrite (gone_same po po1 _ Hex1 Hrc1). exact Halive. }
  { rewrite Hbuf1. cbn [app]. unfold Popen.has_room in *.
    rewrite Hrm1, Hsent1, Hbuf. cbn [app].
    destruct (Popen.stdin_room po) as [room|]; [| reflexivity].
    apply Nat.leb_le in Hroom. apply Nat.leb_le. rewrite length_app. lia. }
  eexists s1, _, po2. split; [exact Hw1 |]. split; [exact Hw2 |].
  split; [reflexivity |]. split; [| exact Hbuf2].
  rewrite Hsent2, Hbuf1, Hsent1, Hbuf. cbn [app]. now rewrite <- app_assoc.
Qed.

Lemma writes_arrive_in_order_witness :
  exists s1 s2 po2,
    write [Byte.x68; Byte.x69] (snd (open Fixtures.serving))
    = (Return 2%Z, s1) /\
    write [Byte.x0a] s1 = (Return 1%Z, s2) /\
    _process (self s2) = Some po2 /\
    Popen.stdin_sent po2 = [Byte.x68; Byte.x69; Byte.x0a].
Proof.
  edestruct (writes_arrive_in_order (snd (open Fixtures.serving)))
    with (d1 := [Byte.x68; Byte.x69]) (d2 := [Byte.x0a])
    as (s1 & s2 & po2 & H1 & H2 & Hpo & Hsent & _);
    [reflexivity | reflexivity | reflexivity | reflexivity |].
  exists s1, s2, po2. repeat split; assumption.
Defined.

(** A child that does not read its standard input, behind a pipe of four
    bytes: four bytes are taken, a fifth makes [write] block for ever. *)
Example write_blocks_on_full_pipe :
  fst (write [Byte.x31; Byte.x32; Byte.x33; Byte.x34] (snd (open Samples.unread)))
  = Return 4%Z /\
  fst (write [Byte.x31; Byte.x32; Byte.x33; Byte.x34; Byte.x35]
         (snd (open Samples.unread)))
  = Diverge.
Proof. split; reflexivity. Qed.



(** What [stderr_read] hands to the reader once the child is gone. *)
Lemma read_after_hang_up (io : NonBlockingReadingIO.t) (n : option Z)
    (fuel : nat) :
  Forall (fun c => c <> [])
    (NonBlockingReadingIO.incoming (NonBlockingReadingIO.f io)) ->
  (0 <= NonBlockingReadingIO.buffer_size io)%Z ->
  (forall k, n = Some k -> (0 <= k)%Z) ->
  NonBlockingReadingIO.read fuel n (NonBlockingReadingIO.hang_up io true) = None.
Proof.
  intros Hne Hsize Hn.
  rewrite (reader_eta (NonBlockingReadingIO.hang_up io true)).
  cbn [NonBlockingReadingIO.hang_up NonBlockingReadingIO.with_pipe
       NonBlockingReadingIO.f NonBlockingReadingIO.pending
       NonBlockingReadingIO.incoming NonBlockingReadingIO.hup
       NonBlockingReadingIO.buffer_size].
  rewrite orb_true_r.
  destruct n as [k|]; cbn [NonBlockingReadingIO.read].
  - apply read_bounded_hangs_from; auto.
  - apply read_unbounded_hangs_from; auto.
Qed.

(** ** [read_error] once the child is gone *)

(** X12.  Once the child has exited, [read_error] never returns: the
    write end of the standard-error pipe is closed, and the reader's loop
    has no way out on a closed pipe.  This holds with or without a count
    [n >= 0], and whatever is still unread. *)
Theorem read_error_hangs_after_exit (s : state) (po : Popen.t)
    (io : NonBlockingReadingIO.t) (n : option Z) :
  _process (self s) = Some po ->
  _stderr (self s) = Some io ->
  Popen.exited po (OS.now (world s)) = true ->
  Forall (fun c => c <> [])
    (NonBlockingReadingIO.incoming (NonBlockingReadingIO.f io)) ->
  (0 <= NonBlockingReadingIO.buffer_size io)%Z ->
  (forall k, n = Some k -> (0 <= k)%Z) ->
  forall fuel, read_error fuel n s = (Diverge, s).
Proof.
  intros Hpo Hio Hex Hne Hsize Hn fuel.
  unfold read_error. rewrite (guarded_started s _ po Hpo).
  unfold stderr_read. rewrite Hio, Hpo, Hex.
  now rewrite read_after_hang_up.
Qed.

Lemma read_error_hangs_after_exit_witness :
  read_error 1000 None Fixtures.finished = (Diverge, Fixtures.finished).
Proof.
  eapply (read_error_hangs_after_exit Fixtures.finished).
  - reflexivity.
  - reflexivity.
  - reflexivity.
  - constructor.
  - vm_compute. discriminate.
  - discriminate.
Defined.

(** ** The states [open] and [run_sync] leave *)

Lemma spawn_returns (argv : list string) (e : gmap string string) (dir : string)
    (w : OS.t) (po : Popen.t) :
  Popen.spawn argv e dir w = Return po ->
  Popen.args po = argv /\ Popen.env po = e /\ Popen.cwd po = dir /\
  Popen.returncode po = None /\
  Popen.exits_at po = (fun d => OS.now w + d) <$> OS.lifetime (OS.prog w) /\
  Popen.exit_status po = OS.status (OS.prog w) /\
  Popen.stdout po = OS.stdout_data (OS.prog w) /\
  Popen.stderr po =
    {| NonBlockingReadingIO.pending := [];
       NonBlockingReadingIO.incoming := OS.stderr_data (OS.prog w);
       NonBlockingReadingIO.hup := false |}.
Proof.
  unfold Popen.spawn. destruct (OS.spawn_ok w (OS.now w)); [| discriminate].
  intros [= <-]. cbn. repeat split.
Qed.

Lemma open_returns (s s1 : state) :
  open s = (Return tt, s1) ->
  exists env po,
    _process (self s) = None /\
    create_env (self s) (world s) = Return env /\
    Popen.spawn (args (self s)) env (cwd (self s)) (OS.tick (world s)) = Return po /\
    s1 = {| self :=
              set_stderr (set_process (self s) (Some po))
                (Some {| NonBlockingReadingIO.f := Popen.stderr po;
                         NonBlockingReadingIO.buffer_size :=
                           NonBlockingReadingIO.default_buffer_size |});
            world := OS.tick (world s) |}.
Proof.
  unfold open. destruct (_process (self s)); [discriminate |].
  destruct (create_env (self s) (world s)) as [env| |]; try discriminate.
  destruct (Popen.spawn _ _ _ _) as [po| |] eqn:Hspawn; try discriminate.
  intros [= <-]. eauto 6.
Qed.

(** When [run_sync] returns, [open] had spawned a child that exits, and
    the value is the child's exit status, now recorded. *)
Lemma run_sync_returns (s s1 : state) (code : option Z) :
  run_sync s = (Return code, s1) ->
  exists s0 po te,
    open s = (Return tt, s0) /\
    _process (self s0) = Some po /\
    Popen.returncode po = None /\
    Popen.exits_at po = Some te /\
    code = Some (Popen.exit_status po) /\
    s1 = {| self := set_process (self s0)
                      (Some (Popen.set_returncode po (Some (Popen.exit_status po))));
            world := OS.set_now (OS.tick (world s0))
                       (Nat.max (S (OS.now (world s0))) te) |}.
Proof.
  unfold run_sync, bind at 1.
  destruct (open s) as [[[]|e|] s0] eqn:Hopen; try discriminate.
  destruct (open_returns s s0 Hopen) as (env & po & _ & _ & Hspawn & Hs0).
  apply spawn_returns in Hspawn.
  destruct Hspawn as (_ & _ & _ & Hrc & _).
  assert (_process (self s0) = Some po) as Hpo by now subst s0.
  unfold try_except_ProcessError, wait.
  rewrite (guarded_started s0 _ po Hpo).
  unfold bind, popen_wait, with_popen, popen_returncode, Popen.wait.
  rewrite Hpo, Hrc.
  destruct (Popen.exits_at po) as [te|] eqn:Hex; cbn; [| discriminate].
  intros [= <- <-]. exists s0, po, te. repeat split; assumption || reflexivity.
Qed.

(** ** [read] after [run_sync] *)

(** X13.  After [run_sync] has returned, [read()] returns everything the
    child wrote to its standard output, and a second [read()] returns the
    empty bytes: nothing is handed out twice. *)
Theorem read_after_run_sync (s s1 : state) (code : option Z) :
  run_sync s = (Return code, s1) ->
  exists s2 s3,
    read None s1 = (Return (OS.stdout_data (OS.prog (world s))), s2) /\
    read None s2 = (Return [], s3).
Proof.
  intros Hrun.
  destruct (run_sync_returns s s1 code Hrun)
    as (s0 & po & te & Hopen & Hpo & Hrc & Hex & _ & ->).
  destruct (open_returns s s0 Hopen) as (env & po0 & _ & _ & Hspawn & Hs0).
  apply spawn_returns in Hspawn.
  destruct Hspawn as (_ & _ & _ & _ & _ & _ & Hout & _).
  assert (po0 = po) as -> by (subst s0; cbn in Hpo; congruence).
  unfold read.
  erewrite guarded_started by reflexivity.
  unfold popen_stdout_read, with_popen, Popen.stdout_read, Popen.read_to_eof.
  cbn. rewrite Hex, Hout. cbn.
  eexists _, _. split; [reflexivity |].
  erewrite guarded_started by reflexivity.
  cbn. rewrite Hex. reflexivity.
Qed.

Lemma read_after_run_sync_witness :
  exists s2 s3,
    read None (snd (run_sync Samples.greeting)) = (Return Samples.hello, s2) /\
    read None s2 = (Return [], s3).
Proof.
  apply (read_after_run_sync Samples.greeting (snd (run_sync Samples.greeting))
           (Some 0%Z)).
  reflexivity.
Defined.

(** ** What no sequence of calls changes *)

Section Keeps.
Import Calls.

Lemma same_child_refl (po : Popen.t) : same_child po po.
Proof. unfold same_child. auto. Qed.

Lemma same_child_trans (po1 po2 po3 : Popen.t) :
  same_child po1 po2 -> same_child po2 po3 -> same_child po1 po3.
Proof.
  unfold same_child. intros (-> & -> & -> & H12) (-> & -> & -> & H23). auto 6.
Qed.

Lemma later_refl (s : state) : later s s.
Proof. unfold later. repeat split. eauto using same_child_refl. Qed.

Lemma later_trans (s1 s2 s3 : state) : later s1 s2 -> later s2 s3 -> later s1 s3.
Proof.
  unfold later.
  intros (-> & -> & -> & -> & -> & H12) (-> & -> & -> & -> & -> & H23).
  repeat split. intros po Hpo.
  destruct (H12 po Hpo) as (po2 & Hpo2 & Hsame12).
  destruct (H23 po2 Hpo2) as (po3 & Hpo3 & Hsame23).
  eauto using same_child_trans.
Qed.

(** Replacing the [Popen] by a later one of the same child, the reader or
    the log, and moving the world, gives a later state. *)
Lemma later_set_process (s : state) (po po' : Popen.t) (w : OS.t) :
  _process (self s) = Some po ->
  same_child po po' ->
  later s {| self := set_process (self s) (Some po'); world := w |}.
Proof.
  intros Hpo Hsame. unfold later. repeat split. cbn.
  intros po0 Hpo0. assert (po0 = po) as -> by congruence. eauto.
Qed.

Lemma later_set_other (s : state) (p : Process.t) (w : OS.t) :
  args p = args (self s) -> cwd p = cwd (self s) ->
  inherit_env p = inherit_env (self s) -> aux_env p = aux_env (self s) ->
  aux_paths p = aux_paths (self s) -> _process p = _process (self s) ->
  later s {| self := p; world := w |}.
Proof.
  intros. unfold later. cbn. repeat split; try assumption.
  intros po Hpo. exists po. split; [congruence | apply same_child_refl].
Qed.

Lemma keeps_ret {A} (a : A) : keeps (ret a).
Proof. intros s. apply later_refl. Qed.

Lemma keeps_raise {A} (e : exn) : keeps (raise (A := A) e).
Proof. intros s. apply later_refl. Qed.

Lemma keeps_bind {A B} (m : M A) (k : A -> M B) :
  keeps m -> (forall a, keeps (k a)) -> keeps (bind m k).
Proof.
  intros Hm Hk s. specialize (Hm s). unfold bind.
  destruct (m s) as [[a|e|] s']; cbn in *; [| assumption | assumption].
  apply (later_trans s s'); [assumption | apply Hk].
Qed.

Lemma keeps_try {A} (body : M A) (handler : string -> M A) :
  keeps body -> (forall msg, keeps (handler msg)) ->
  keeps (try_except_ProcessError body handler).
Proof.
  intros Hbody Hhandler s. specialize (Hbody s). unfold try_except_ProcessError.
  destruct (body s) as [[a|e|] s']; cbn in *; try assumption.
  destruct e; try assumption.
  apply (later_trans s s'); [assumption | apply Hhandler].
Qed.

Lemma keeps_with_popen {A} (attr : string)
    (call : Popen.t -> OS.t -> outcome A * Popen.t * OS.t) :
  (forall po w, same_child po (snd (fst (call po w)))) ->
  keeps (with_popen attr call).
Proof.
  intros Hcall s. unfold with_popen.
  destruct (_process (self s)) as [po|] eqn:Hpo; [| apply later_refl].
  specialize (Hcall po (OS.tick (world s))).
  destruct (call po (OS.tick (world s))) as [[r po'] w']. cbn in *.
  now apply later_set_process with (po := po).
Qed.

Lemma set_returncode_same (po : Popen.t) (c : Z) :
  Popen.returncode po = None ->
  same_child po (Popen.set_returncode po (Some c)).
Proof. intros Hrc. unfold same_child. cbn. repeat split. congruence. Qed.

Lemma poll_same_child (po : Popen.t) (n : nat) :
  same_child po (snd (Popen.poll po n)).
Proof.
  unfold Popen.poll. destruct (Popen.returncode po) eqn:Hrc;
    [apply same_child_refl |].
  destruct (Popen.exited po n); cbn;
    [now apply set_returncode_same | apply same_child_refl].
Qed.

Lemma wait_same_child (timeout : option nat) (po : Popen.t) (n : nat) :
  same_child po (snd (fst (Popen.wait timeout po n))).
Proof.
  unfold Popen.wait. destruct (Popen.returncode po) eqn:Hrc;
    [apply same_child_refl |].
  destruct (Popen.exits_at po), timeout; cbn;
    try (now apply set_returncode_same); try apply same_child_refl.
  destruct (_ <=? _)%nat; cbn;
    [now apply set_returncode_same | apply same_child_refl].
Qed.

Lemma set_exit_same (po : Popen.t) (e : option nat) (st : Z)
    (sigs : list Popen.signal) :
  same_child po (Popen.set_exit po e st sigs).
Proof. unfold same_child. cbn. auto. Qed.

Lemma send_signal_same_child (sig : Popen.signal) (po : Popen.t) (n : nat) :
  same_child po (Popen.send_signal sig po n).
Proof.
  unfold Popen.send_signal.
  pose proof (poll_same_child po n) as Hpoll.
  destruct (Popen.poll po n) as [[c|] po1]; cbn in *; [assumption |].
  apply (same_child_trans po po1); [assumption |].
  destruct sig; [destruct (Popen.sigterm_ignored po1) |];
    try apply set_exit_same;
    unfold Popen.strike; destruct (Popen.exits_at po1);
    try destruct (_ <=? _)%nat; apply set_exit_same.
Qed.

Lemma stdin_flush_same_child (po : Popen.t) (n : nat) :
  same_child po (snd (fst (Popen.stdin_flush po n))).
Proof.
  unfold Popen.stdin_flush.
  destruct (Popen.stdin_buffer po); [apply same_child_refl |].
  destruct (Popen.exited po n); [apply same_child_refl |].
  destruct (Popen.has_room po _); [unfold same_child; cbn; auto |].
  destruct (Popen.exits_at po); unfold same_child; cbn; auto.
Qed.

Lemma read_to_eof_same_child (po : Popen.t) (n : nat) :
  same_child po (snd (fst (Popen.read_to_eof po n))).
Proof.
  unfold Popen.read_to_eof. destruct (Popen.exits_at po); cbn;
    unfold same_child; cbn; auto.
Qed.

Lemma stdout_read_same_child (k : option Z) (po : Popen.t) (n : nat) :
  same_child po (snd (fst (Popen.stdout_read k po n))).
Proof.
  unfold Popen.stdout_read. destruct k as [k|]; [| apply read_to_eof_same_child].
  destruct (k <? -1)%Z; [apply same_child_refl |].
  destruct (_ || _); [apply read_to_eof_same_child |].
  unfold same_child; cbn; auto.
Qed.

Lemma stdout_readline_same_child (limit : option Z) (po : Popen.t) (n : nat) :
  same_child po (snd (fst (Popen.stdout_readline limit po n))).
Proof.
  unfold Popen.stdout_readline.
  destruct (Popen.first_line (Popen.stdout po)); [unfold same_child; cbn; auto |].
  match goal with |- context [if ?b then _ else _] => destruct b end;
    [unfold same_child; cbn; auto |].
  destruct (Popen.exits_at po); unfold same_child; cbn; auto.
Qed.

Lemma keeps_check_run : keeps check_run.
Proof.
  apply keeps_bind; [intros s; apply later_refl |].
  intros []; [apply keeps_ret | apply keeps_raise].
Qed.

Lemma keeps_popen_poll : keeps popen_poll.
Proof.
  apply keeps_with_popen. intros po w.
  pose proof (poll_same_child po (OS.now w)).
  now destruct (Popen.poll po (OS.now w)).
Qed.

Lemma keeps_is_alive : keeps is_alive.
Proof.
  apply keeps_bind; [apply keeps_check_run | intros _].
  apply keeps_bind; [apply keeps_popen_poll | intros rc; apply keeps_ret].
Qed.

Lemma keeps_check_alive : keeps check_alive.
Proof.
  apply keeps_bind; [apply keeps_is_alive |].
  intros []; [apply keeps_ret | apply keeps_raise].
Qed.

Lemma keeps_popen_returncode : keeps popen_returncode.
Proof.
  intros s. unfold popen_returncode.
  destruct (_process (self s)); apply later_refl.
Qed.

Lemma keeps_wait (timeout : option nat) : keeps (wait timeout).
Proof.
  apply keeps_bind; [apply keeps_check_run | intros _].
  apply keeps_bind; [| intros _; apply keeps_popen_returncode].
  apply keeps_with_popen. intros po w.
  pose proof (wait_same_child timeout po (OS.now w)).
  now destruct (Popen.wait timeout po (OS.now w)) as [[r po'] n].
Qed.

Lemma keeps_open : keeps open.
Proof.
  intros s. unfold open.
  destruct (_process (self s)) eqn:Hpo; [apply later_refl |].
  destruct (create_env (self s) (world s)); try apply later_refl.
  destruct (Popen.spawn _ _ _ _); cbn;
    unfold later; cbn; repeat split; intros po' Hpo'; congruence.
Qed.

Lemma keeps_close (kill : bool) : keeps (close kill).
Proof.
  apply keeps_bind; [apply keeps_check_alive | intros _].
  destruct kill; apply keeps_with_popen; intros po w; cbn;
    apply send_signal_same_child.
Qed.

Lemma keeps_write (data : bytes) : keeps (write data).
Proof.
  apply keeps_bind; [apply keeps_check_alive | intros _].
  apply keeps_bind.
  - intros s. unfold popen_stdin_write.
    destruct (_process (self s)) as [po|] eqn:Hpo; [| apply later_refl].
    cbn. apply later_set_process with (po := po); [assumption |].
    unfold same_child; cbn; auto.
  - intros written. apply keeps_bind; [| intros _; apply keeps_ret].
    apply keeps_with_popen. intros po w.
    pose proof (stdin_flush_same_child po (OS.now w)).
    now destruct (Popen.stdin_flush po (OS.now w)) as [[r po'] n'].
Qed.

Lemma keeps_read (n : option Z) : keeps (read n).
Proof.
  apply keeps_bind; [apply keeps_check_run | intros _].
  apply keeps_with_popen. intros po w.
  pose proof (stdout_read_same_child n po (OS.now w)).
  now destruct (Popen.stdout_read n po (OS.now w)) as [[r po'] n'].
Qed.

Lemma keeps_readline (limit : option Z) : keeps (readline limit).
Proof.
  apply keeps_bind; [apply keeps_check_run | intros _].
  apply keeps_with_popen. intros po w.
  pose proof (stdout_readline_same_child limit po (OS.now w)).
  now destruct (Popen.stdout_readline limit po (OS.now w)) as [[r po'] n'].
Qed.

Lemma keeps_read_error (fuel : nat) (n : option Z) : keeps (read_error fuel n).
Proof.
  apply keeps_bind; [apply keeps_check_run | intros _].
  intros s. unfold stderr_read.
  destruct (_stderr (self s)); [| apply later_refl].
  destruct (NonBlockingReadingIO.read fuel n _) as [[r io']|]; cbn;
    [| apply later_refl].
  now apply later_set_other.
Qed.

Lemma keeps_logger_error (msg : string) : keeps (logger_error msg).
Proof. intros s. cbn. now apply later_set_other. Qed.

Lemma keeps_exit : keeps __exit__.
Proof.
  apply keeps_bind; [apply keeps_is_alive |].
  intros []; cbn [negb]; [| apply keeps_ret].
  apply keeps_try; [apply keeps_close | intros msg].
  apply keeps_bind; [apply keeps_logger_error | intros _; apply keeps_logger_error].
Qed.

Lemma keeps_run_sync : keeps run_sync.
Proof.
  apply keeps_bind; [apply keeps_open | intros _].
  apply keeps_try; [apply keeps_wait | intros _; apply keeps_popen_returncode].
Qed.

Lemma keeps_return_code : keeps return_code.
Proof.
  apply keeps_bind; [intros s; apply later_refl | intros started].
  apply keeps_bind.
  - destruct started; [| apply keeps_ret].
    apply keeps_bind; [apply keeps_is_alive | intros alive; apply keeps_ret].
  - intros []; [apply keeps_popen_poll | apply keeps_raise].
Qed.

Lemma after_later (c : call) (s : state) : later s (after c s).
Proof.
  destruct c; cbn [after].
  - apply keeps_open.
  - apply keeps_run_sync.
  - apply keeps_is_alive.
  - apply keeps_wait.
  - apply keeps_close.
  - apply keeps_write.
  - apply keeps_read.
  - apply keeps_read_error.
  - apply keeps_readline.
  - apply keeps_exit.
  - apply keeps_return_code.
Qed.

Lemma after_all_later (cs : list call) : forall s, later s (after_all cs s).
Proof.
  induction cs as [|c cs IH]; intros s; [apply later_refl |].
  cbn. apply (later_trans s (after c s)); [apply after_later | apply IH].
Qed.

End Keeps.

(** X14.  No sequence of method calls changes the configuration of the
    object: [args], [cwd], [inherit_env], [aux_env] and [aux_paths] are
    after it what they were before, whatever the calls returned or
    raised. *)
Theorem configuration_is_fixed (cs : list Calls.call) (s : state) :
  args (self (Calls.after_all cs s)) = args (self s) /\
  cwd (self (Calls.after_all cs s)) = cwd (self s) /\
  inherit_env (self (Calls.after_all cs s)) = inherit_env (self s) /\
  aux_env (self (Calls.after_all cs s)) = aux_env (self s) /\
  aux_paths (self (Calls.after_all cs s)) = aux_paths (self s).
Proof.
  destruct (after_all_later cs s) as (H1 & H2 & H3 & H4 & H5 & _). auto.
Qed.

(** X15.  Once an object holds a child it holds that child for good: after
    any sequence of method calls [_process] is still set, to a [Popen]
    spawned with the same arguments, environment and working directory.
    No call brings the object back to the unstarted state or spawns a
    second child. *)
Theorem started_for_good (cs : list Calls.call) (s : state) (po : Popen.t) :
  _process (self s) = Some po ->
  exists po',
    _process (self (Calls.after_all cs s)) = Some po' /\
    Popen.args po' = Popen.args po /\
    Popen.env po' = Popen.env po /\
    Popen.cwd po' = Popen.cwd po /\
    Lifecycle.phase_of (Calls.after_all cs s) <> Lifecycle.Unstarted.
Proof.
  intros Hpo.
  destruct (after_all_later cs s) as (_ & _ & _ & _ & _ & Hchild).
  destruct (Hchild po Hpo) as (po' & Hpo' & Hargs & Henv & Hcwd & _).
  exists po'. repeat split; try assumption.
  unfold Lifecycle.phase_of. rewrite Hpo'.
  now destruct (Lifecycle.gone po' _).
Qed.

Lemma started_for_good_witness :
  exists po',
    _process (self (Calls.after_all
                      [Calls.Close true; Calls.Wait None; Calls.Open;
                       Calls.RunSync; Calls.Exit]
                      (snd (open Fixtures.serving)))) = Some po' /\
    Popen.args po' = args Fixtures.clear_demo.
Proof.
  edestruct (started_for_good
               [Calls.Close true; Calls.Wait None; Calls.Open;
                Calls.RunSync; Calls.Exit]
               (snd (open Fixtures.serving)))
    as (po' & Hpo' & Hargs & _); [reflexivity |].
  exists po'. split; [exact Hpo' | exact Hargs].
Defined.

(** X16.  An exit status, once recorded, is the exit status for good:
    whatever methods are called afterwards, a [wait] with any timeout
    returns that same status. *)
Theorem exit_status_is_final (cs : list Calls.call) (s : state) (po : Popen.t)
    (c : Z) (timeout : option nat) :
  _process (self s) = Some po ->
  Popen.returncode po = Some c ->
  fst (wait timeout (Calls.after_all cs s)) = Return (Some c).
Proof.
  intros Hpo Hrc.
  destruct (after_all_later cs s) as (_ & _ & _ & _ & _ & Hchild).
  destruct (Hchild po Hpo) as (po' & Hpo' & _ & _ & _ & Hsticky).
  now rewrite (wait_recorded _ po' c timeout Hpo' (Hsticky c Hrc)).
Qed.

Lemma exit_status_is_final_witness :
  fst (wait (Some 0)
         (Calls.after_all
            [Calls.Close true; Calls.ReturnCode; Calls.Write [Byte.x68];
             Calls.Read None; Calls.Exit]
            Fixtures.finished))
  = Return (Some 0%Z).
Proof.
  eapply (exit_status_is_final _ Fixtures.finished); reflexivity.
Defined.

(** X17.  An object runs once: after a [run_sync] that returned, every
    further [run_sync] and every [open] raises the [ProcessError] "this
    object has already run once", also after other calls in between; the
    [open] inside [run_sync] is outside its [try]. *)
Theorem runs_only_once (cs : list Calls.call) (s s1 : state) (code : option Z) :
  run_sync s = (Return code, s1) ->
  fst (run_sync (Calls.after_all cs s1)) = Raise (ProcessError msg_already_run) /\
  fst (open (Calls.after_all cs s1)) = Raise (ProcessError msg_already_run).
Proof.
  intros Hrun.
  destruct (run_sync_returns s s1 code Hrun) as (s0 & po & te & _ & _ & _ & _ & _ & ->).
  destruct (after_all_later cs
              {| self := set_process (self s0)
                           (Some (Popen.set_returncode po
                                    (Some (Popen.exit_status po))));
                 world := OS.set_now (OS.tick (world s0))
                            (Nat.max (S (OS.now (world s0))) te) |})
    as (_ & _ & _ & _ & _ & Hchild).
  destruct (Hchild _ eq_refl) as (po' & Hpo' & _).
  unfold run_sync, bind, open. rewrite Hpo'. split; reflexivity.
Qed.

Lemma runs_only_once_witness :
  fst (run_sync (Calls.after_all [Calls.Read None] Fixtures.finished))
  = Raise (ProcessError msg_already_run).
Proof.
  apply (runs_only_once [Calls.Read None] Fixtures.fresh Fixtures.finished
           (Some 0%Z)).
  reflexivity.
Defined.

(** ** The entries [form_kwargs] makes *)

Section MoreOptions.
Import Ludus Leaves.

Lemma flat_map_nested {A B C} (g : B -> list C) (h : A -> list B) (l : list A) :
  flat_map g (flat_map h l) = flat_map (fun x => flat_map g (h x)) l.
Proof.
  induction l as [|x l IH]; [reflexivity |].
  cbn. now rewrite flat_map_app, IH.
Qed.

(** X18.  The entries of an option are one group per leaf, in the order of
    the leaves: the flag, followed by the text of the leaf unless the leaf
    is [True].  Nesting of sequences leaves no trace, and [None] and
    [False] produce nothing wherever they stand. *)
Theorem form_kwargs_by_leaves (key : string) (v : value) :
  form_kwargs key v
  = flat_map (fun leaf => ("--" +:+ key) :: payload leaf) (leaves v).
Proof.
  induction v as [|b|s|vs IHvs|z|repr] using value_nested_ind;
    try reflexivity.
  - now destruct b.
  - cbn [form_kwargs leaves]. rewrite flat_map_nested.
    induction IHvs as [|v vs Hv _ IH]; [reflexivity |].
    cbn [flat_map]. now rewrite Hv, IH.
Qed.

Lemma replace_char_idempotent (old new : ascii) (s : string) :
  replace_char old new (replace_char old new s) = replace_char old new s.
Proof.
  induction s as [|c s IH]; [reflexivity |].
  cbn. rewrite IH. f_equal.
  destruct (Ascii.eqb c old) eqn:Hc; [| now rewrite Hc].
  now destruct (Ascii.eqb new old).
Qed.

(** X19.  Underscores and hyphens in option keys are the same to
    [create_process]: writing the keys with hyphens in the first place
    gives the same process. *)
Theorem create_process_hyphen_keys (self : Ludus.t) (command : string)
    (args : list string) (kwargs : list (string * value)) :
  create_process self command args
    (map (fun '(k, v) => (replace_char "_" "-" k, v)) kwargs)
  = create_process self command args kwargs.
Proof.
  unfold create_process. do 3 f_equal.
  induction kwargs as [|[k v] rest IH]; [reflexivity |].
  cbn. now rewrite replace_char_idempotent, IH.
Qed.

(** X20.  The argument vector of [_create_instance]: the command, the
    archetype and the instance name when they are given and not empty,
    [--overwrite] and [--force] when set, and the instances directory.
    An empty instance name is dropped like a missing one. *)
Theorem create_instance_arguments (self : Ludus.t)
    (archetype instance : option string) (overwrite force : bool) :
  Process.args (_create_instance self archetype instance overwrite force)
  = "instance-create"
    :: truthy_names [archetype; instance]
    ++ (if overwrite then ["--overwrite"] else [])
    ++ (if force then ["--force"] else [])
    ++ ["--instances-dir"; instance_dir self]
  /\ Forall (fun name => name <> "") (truthy_names [archetype; instance])
  /\ _create_instance self archetype (Some "") overwrite force
     = _create_instance self archetype None overwrite force.
Proof.
  split; [| split].
  - unfold _create_instance, create_process. cbn [Process.args Process.new].
    destruct overwrite, force; reflexivity.
  - destruct archetype as [[|c1 r1]|], instance as [[|c2 r2]|]; cbn;
      repeat constructor; discriminate.
  - destruct archetype as [[|c1 r1]|]; reflexivity.
Qed.

End MoreOptions.

(** ** [_set_config] *)

Section SetConfig.
Import Ludus Commands.

(** X21.  [_set_config] passes the value as text and its type as a tag:
    [None] goes as ["None"] with the tag ["null"], a [bool] as ["True"] or
    ["False"] with the tag ["int"], an [int] as its decimal digits with
    the tag ["int"], a [float] as its text with the tag ["float"], a [str]
    as it is with the tag ["str"]; the vector is the command, instance,
    config, key and text, then [--type] with the tag, [--write-back] and
    the instances directory.  A value of any other type raises
    [TypeError] and no process is built. *)
Theorem set_config_arguments (self : Ludus.t) (instance config key : string) :
  (exists p,
     _set_config self instance config key CNone = Done p /\
     Process.args p
     = ["config-set"; instance; config; key; "None";
        "--type"; "null"; "--write-back";
        "--instances-dir"; instance_dir self]) /\
  (forall b : bool,
   (exists p,
      _set_config self instance config key (CBool b) = Done p /\
      Process.args p
      = ["config-set"; instance; config; key; (if b then "True" else "False");
         "--type"; "int"; "--write-back";
         "--instances-dir"; instance_dir self])) /\
  (forall z : Z,
   (exists p,
      _set_config self instance config key (CInt z) = Done p /\
      Process.args p
      = ["config-set"; instance; config; key; str_of_int z;
         "--type"; "int"; "--write-back";
         "--instances-dir"; instance_dir self])) /\
  (forall repr : string,
   (exists p,
      _set_config self instance config key (CFloat repr) = Done p /\
      Process.args p
      = ["config-set"; instance; config; key; repr;
         "--type"; "float"; "--write-back";
         "--instances-dir"; instance_dir self])) /\
  (forall text : string,
   (exists p,
      _set_config self instance config key (CStr text) = Done p /\
      Process.args p
      = ["config-set"; instance; config; key; text;
         "--type"; "str"; "--write-back";
         "--instances-dir"; instance_dir self])) /\
  (forall repr : string,
     _set_config self instance config key (COther repr)
     = Failed (TypeError ("unsupported value type: " +:+ repr))).
Proof.
  repeat split; intros; try (eexists; split; reflexivity); reflexivity.
Qed.

(** [set_config(instance, config, key, True)] on the sample installation. *)
Example set_config_bool :
  exists p,
    _set_config Fixtures.ludus "demo" "train.yml" "shuffle" (CBool true) = Done p /\
    Process.args p
    = ["config-set"; "demo"; "train.yml"; "shuffle"; "True";
       "--type"; "int"; "--write-back";
       "--instances-dir"; "/srv/ludus/instances"].
Proof. eexists. split; reflexivity. Qed.

End SetConfig.

(** ** The processes [Ludus] builds and the commands that run them *)

Section LudusRuns.
Import Ludus Commands.

(** X22.  Every process [create_process] builds inherits the parent's
    environment: it cannot be opened when the parent has no PATH
    ([create_env] raises [KeyError]), and otherwise its PATH is the
    scripts directory, the conda directory, the joined [sys.path] and the
    parent's PATH, in this order, every other variable being the
    parent's. *)
Theorem ludus_process_environment (self : Ludus.t) (command : string)
    (args : list string) (kwargs : list (string * value)) (w : OS.t) :
  (OS.environ w !! "PATH" = None ->
   create_env (create_process self command args kwargs) w
   = Raise (KeyError "PATH")) /\
  (forall inherited,
     OS.environ w !! "PATH" = Some inherited ->
     exists env,
       create_env (create_process self command args kwargs) w = Return env /\
       env !! "PATH"
       = Some (script_dir self +:+ ":" +:+ "/home/kani/.conda3/envs/apollo/bin"
               +:+ ":" +:+ join ":" (OS.sys_path w) +:+ ":" +:+ inherited) /\
       forall k, k <> "PATH" -> env !! k = OS.environ w !! k).
Proof.
  rewrite create_env_closed_form.
  cbn [create_process Process.new inherit_env aux_env aux_paths default
       from_option id].
  split.
  - now intros ->.
  - intros inherited ->. cbn [fmap option_fmap option_map]. cbn zeta.
    rewrite (left_id_L ∅ (∪)), lookup_insert_eq.
    eexists. split; [reflexivity |]. split.
    + now rewrite lookup_insert_eq.
    + intros k Hk. now rewrite !lookup_insert_ne by congruence.
Qed.

Lemma ludus_process_environment_witness :
  exists env,
    create_env Fixtures.clear_demo
      (Fixtures.machine (Fixtures.quiet 3) Fixtures.always) = Return env /\
    env !! "HOME" = Some "/root".
Proof.
  destruct (ludus_process_environment Fixtures.ludus "instance-clear" ["demo"]
              [("yes", VBool true);
               ("instances_dir", VStr (instance_dir Fixtures.ludus))]
              (Fixtures.machine (Fixtures.quiet 3) Fixtures.always))
    as [_ Hsome].
  destruct (Hsome "/usr/bin:/bin" eq_refl) as (env & Henv & _ & Hother).
  exists env. split; [exact Henv |].
  rewrite Hother by discriminate. reflexivity.
Defined.

(** Whether the environment of a built process can be made depends on
    the parent's PATH alone. *)
Lemma create_process_env (self : Ludus.t) (command : string)
    (args : list string) (kwargs : list (string * value)) (w : OS.t) :
  match OS.environ w !! "PATH" with
  | Some _ =>
      exists env,
        create_env (create_process self command args kwargs) w = Return env
  | None =>
      create_env (create_process self command args kwargs) w
      = Raise (KeyError "PATH")
  end.
Proof.
  rewrite create_env_closed_form.
  cbn [create_process Process.new inherit_env aux_env aux_paths default
       from_option id].
  destruct (OS.environ w !! "PATH") as [inherited|]; [| reflexivity].
  cbn [fmap option_fmap option_map]. cbn zeta.
  rewrite (left_id_L ∅ (∪)), lookup_insert_eq. eauto.
Qed.

(** What a fresh process does on a machine where it can be spawned and
    the program exits: [open] and [wait()] return, and the object is left
    with a child that is gone and a reader on the child's standard
    error. *)
Lemma fresh_run (p : Process.t) (w : OS.t) (env : gmap string string) (d : nat) :
  _process p = None ->
  create_env p w = Return env ->
  OS.spawn_ok w (S (OS.now w)) = true ->
  OS.lifetime (OS.prog w) = Some d ->
  exists s0 s1 po io,
    open {| self := p; world := w |} = (Return tt, s0) /\
    wait None s0 = (Return (Some (OS.status (OS.prog w))), s1) /\
    _process (self s1) = Some po /\
    Popen.exited po (OS.now (world s1)) = true /\
    _stderr (self s1) = Some io /\
    NonBlockingReadingIO.incoming (NonBlockingReadingIO.f io)
    = OS.stderr_data (OS.prog w) /\
    NonBlockingReadingIO.buffer_size io = 512%Z.
Proof.
  intros Hnone Henv Hok Hlife.
  destruct w as [now environ sys ok [life st ign out err]].
  cbn in Hok, Hlife. subst life.
  eexists _, _, _, _. split.
  { unfold open. cbn [self world]. rewrite Hnone, Henv.
    unfold Popen.spawn. cbn [OS.tick OS.set_now OS.now OS.spawn_ok OS.prog].
    rewrite Hok. reflexivity. }
  split.
  { unfold wait, bind, check_run, bind, is_run, popen_wait, with_popen,
      popen_returncode, Popen.wait.
    cbn. reflexivity. }
  split; [reflexivity |]. split.
  { unfold Popen.exited. cbn. apply Nat.leb_le. lia. }
  split; [reflexivity |]. split; reflexivity.
Qed.

Lemma run_sync_fresh (p : Process.t) (w : OS.t) (s0 s1 : state) (code : option Z) :
  open {| self := p; world := w |} = (Return tt, s0) ->
  wait None s0 = (Return code, s1) ->
  run_sync {| self := p; world := w |} = (Return code, s1).
Proof.
  intros Hopen Hwait. unfold run_sync, bind. rewrite Hopen.
  unfold try_except_ProcessError. now rewrite Hwait.
Qed.

Variable decode : bytes -> option string.

(** The last step of every command on the state [fresh_run] describes. *)
Lemma check_ret_after_exit (fuel : nat) (name : string) (code : Z) (s : state)
    (po : Popen.t) (io : NonBlockingReadingIO.t) :
  _process (self s) = Some po ->
  Popen.exited po (OS.now (world s)) = true ->
  _stderr (self s) = Some io ->
  Forall (fun c => c <> [])
    (NonBlockingReadingIO.incoming (NonBlockingReadingIO.f io)) ->
  NonBlockingReadingIO.buffer_size io = 512%Z ->
  check_ret decode fuel name (Some code) s
  = if (code =? 0)%Z then (Done tt, s) else (Hang, s).
Proof.
  intros Hpo Hex Hio Hne Hsize. unfold check_ret, nonzero.
  destruct (code =? 0)%Z; [reflexivity |]. cbn [negb].
  unfold and_then, lift, read_error. rewrite (guarded_started s _ po Hpo).
  unfold stderr_read. rewrite Hio, Hpo, Hex.
  rewrite read_after_hang_up;
    [reflexivity | assumption | rewrite Hsize; lia | discriminate].
Qed.

(** What a command that runs [p] with [run_sync] ends in. *)
Lemma run_sync_command (fuel : nat) (name : string) (p : Process.t) (w : OS.t)
    (env : gmap string string) (d : nat) :
  _process p = None ->
  create_env p w = Return env ->
  OS.spawn_ok w (S (OS.now w)) = true ->
  OS.lifetime (OS.prog w) = Some d ->
  Forall (fun c => c <> []) (OS.stderr_data (OS.prog w)) ->
  fst (on_world p (and_then (lift run_sync) (check_ret decode fuel name)) w)
  = if (OS.status (OS.prog w) =? 0)%Z then Done tt else Hang.
Proof.
  intros Hnone Henv Hok Hlife Hne.
  destruct (fresh_run p w env d Hnone Henv Hok Hlife)
    as (s0 & s1 & po & io & Hopen & Hwait & Hpo & Hex & Hio & Hinc & Hsize).
  unfold on_world, and_then, lift.
  rewrite (run_sync_fresh p w s0 s1 _ Hopen Hwait).
  rewrite (check_ret_after_exit fuel name _ s1 po io Hpo Hex Hio)
    by (rewrite ?Hinc; assumption).
  now destruct (_ =? 0)%Z.
Qed.

(** The same for [run_instance] without [proc_fn], which calls [open] and
    [wait] itself. *)
Lemma open_wait_command (fuel : nat) (name : string) (p : Process.t) (w : OS.t)
    (env : gmap string string) (d : nat) :
  _process p = None ->
  create_env p w = Return env ->
  OS.spawn_ok w (S (OS.now w)) = true ->
  OS.lifetime (OS.prog w) = Some d ->
  Forall (fun c => c <> []) (OS.stderr_data (OS.prog w)) ->
  fst (on_world p
         (and_then (lift open) (fun _ =>
          and_then (fun s => (Done tt, s)) (fun _ =>
          and_then (lift (wait None)) (check_ret decode fuel name)))) w)
  = if (OS.status (OS.prog w) =? 0)%Z then Done tt else Hang.
Proof.
  intros Hnone Henv Hok Hlife Hne.
  destruct (fresh_run p w env d Hnone Henv Hok Hlife)
    as (s0 & s1 & po & io & Hopen & Hwait & Hpo & Hex & Hio & Hinc & Hsize).
  unfold on_world, and_then, lift.
  rewrite Hopen, Hwait.
  rewrite (check_ret_after_exit fuel name _ s1 po io Hpo Hex Hio)
    by (rewrite ?Hinc; assumption).
  now destruct (_ =? 0)%Z.
Qed.

(** Every command, on a machine where the program can be spawned and
    exits. *)
Lemma commands_outcome (fuel : nat) (self : Ludus.t) (w : OS.t)
    (inherited : string) (d : nat) :
  OS.environ w !! "PATH" = Some inherited ->
  OS.spawn_ok w (S (OS.now w)) = true ->
  OS.lifetime (OS.prog w) = Some d ->
  Forall (fun c => c <> []) (OS.stderr_data (OS.prog w)) ->
  (forall archetype instance overwrite force,
     fst (create_instance decode fuel self archetype instance overwrite force w)
     = if (OS.status (OS.prog w) =? 0)%Z then Done tt else Hang) /\
  (forall instance commands verbose dry_run,
     fst (run_instance decode fuel self instance commands verbose dry_run None w)
     = if (OS.status (OS.prog w) =? 0)%Z then Done tt else Hang) /\
  (forall instance,
     fst (clear_instance decode fuel self instance w)
     = if (OS.status (OS.prog w) =? 0)%Z then Done tt else Hang) /\
  (forall instance config key value,
     value_type value <> None ->
     fst (set_config decode fuel self instance config key value w)
     = if (OS.status (OS.prog w) =? 0)%Z then Done tt else Hang).
Proof.
  intros Hpath Hok Hlife Hne.
  assert (forall command args kwargs,
            exists env,
              create_env (create_process self command args kwargs) w = Return env)
    as Henv.
  { intros command args kwargs.
    pose proof (create_process_env self command args kwargs w) as Henv.
    now rewrite Hpath in Henv. }
  assert (forall name command args kwargs,
            fst (on_world (create_process self command args kwargs)
                   (and_then (lift run_sync) (check_ret decode fuel name)) w)
            = if (OS.status (OS.prog w) =? 0)%Z then Done tt else Hang) as Hrun.
  { intros name command args kwargs.
    destruct (Henv command args kwargs) as [env Hp].
    apply (run_sync_command fuel name _ w env d);
      [reflexivity | exact Hp | assumption | assumption | assumption]. }
  repeat split.
  - intros archetype instance overwrite force. apply Hrun.
  - intros instance commands verbose dry_run.
    unfold run_instance, _run_instance.
    destruct (Henv "instance-run" (instance :: commands)
                [("verbose", VBool verbose); ("dry_run", VBool dry_run);
                 ("instances_dir", VStr (instance_dir self));
                 ("codebase", VStr (codebase_dir self))]) as [env Hp].
    apply (open_wait_command fuel _ _ w env d);
      [reflexivity | exact Hp | assumption | assumption | assumption].
  - intros instance. apply Hrun.
  - intros instance config key value Htyped.
    unfold set_config, _set_config.
    destruct (value_type value) as [tag|]; [| congruence].
    apply Hrun.
Qed.

(** X23.  On a machine where the parent has a PATH, the program can be
    spawned and it exits with status 0, [create_instance], [run_instance]
    without [proc_fn], [clear_instance] and [set_config] with a value of
    a supported type all return normally; the standard error of the
    child is not read. *)
Theorem commands_succeed_on_zero (fuel : nat) (self : Ludus.t) (w : OS.t)
    (inherited : string) (d : nat) :
  OS.environ w !! "PATH" = Some inherited ->
  OS.spawn_ok w (S (OS.now w)) = true ->
  OS.lifetime (OS.prog w) = Some d ->
  Forall (fun c => c <> []) (OS.stderr_data (OS.prog w)) ->
  OS.status (OS.prog w) = 0%Z ->
  (forall archetype instance overwrite force,
     fst (create_instance decode fuel self archetype instance overwrite force w)
     = Done tt) /\
  (forall instance commands verbose dry_run,
     fst (run_instance decode fuel self instance commands verbose dry_run None w)
     = Done tt) /\
  (forall instance, fst (clear_instance decode fuel self instance w) = Done tt) /\
  (forall instance config key value,
     value_type value <> None ->
     fst (set_config decode fuel self instance config key value w) = Done tt).
Proof.
  intros Hpath Hok Hlife Hne Hzero.
  pose proof (commands_outcome fuel self w inherited d Hpath Hok Hlife Hne) as H.
  now rewrite Hzero in H.
Qed.

(** X24.  On the same machines, when the program exits with a status
    other than 0, none of the four commands raises [ScriptError]: the
    argument [process.read_error()] of [throw_script_error] is evaluated
    first, on a child that is gone, and never returns.  This holds for
    every amount of fuel given to the reader's loop. *)
Theorem commands_hang_on_failure (fuel : nat) (self : Ludus.t) (w : OS.t)
    (inherited : string) (d : nat) :
  OS.environ w !! "PATH" = Some inherited ->
  OS.spawn_ok w (S (OS.now w)) = true ->
  OS.lifetime (OS.prog w) = Some d ->
  Forall (fun c => c <> []) (OS.stderr_data (OS.prog w)) ->
  OS.status (OS.prog w) <> 0%Z ->
  (forall archetype instance overwrite force,
     fst (create_instance decode fuel self archetype instance overwrite force w)
     = Hang) /\
  (forall instance commands verbose dry_run,
     fst (run_instance decode fuel self instance commands verbose dry_run None w)
     = Hang) /\
  (forall instance, fst (clear_instance decode fuel self instance w) = Hang) /\
  (forall instance config key value,
     value_type value <> None ->
     fst (set_config decode fuel self instance config key value w) = Hang).
Proof.
  intros Hpath Hok Hlife Hne Hfail.
  pose proof (commands_outcome fuel self w inherited d Hpath Hok Hlife Hne) as H.
  apply Z.eqb_neq in Hfail. now rewrite Hfail in H.
Qed.

(** X25.  When the parent's environment has no PATH, every command fails
    with the [KeyError] of [create_env] before anything is spawned, and
    leaves the world as it was. *)
Theorem commands_need_path (fuel : nat) (self : Ludus.t) (w : OS.t) :
  OS.environ w !! "PATH" = None ->
  (forall archetype instance overwrite force,
     create_instance decode fuel self archetype instance overwrite force w
     = (Failed (Uncaught (KeyError "PATH")), w)) /\
  (forall instance commands verbose dry_run proc_fn,
     run_instance decode fuel self instance commands verbose dry_run proc_fn w
     = (Failed (Uncaught (KeyError "PATH")), w)) /\
  (forall instance,
     clear_instance decode fuel self instance w
     = (Failed (Uncaught (KeyError "PATH")), w)) /\
  (forall instance config key value,
     value_type value <> None ->
     set_config decode fuel self instance config key value w
     = (Failed (Uncaught (KeyError "PATH")), w)).
Proof.
  intros Hpath.
  assert (forall command args kwargs,
            open {| Process.self := create_process self command args kwargs;
                    world := w |}
            = (Raise (KeyError "PATH"),
               {| Process.self := create_process self command args kwargs;
                  world := w |})) as Hopen.
  { intros command args kwargs. unfold open. cbn [Process.self world].
    pose proof (create_process_env self command args kwargs w) as Hnone.
    rewrite Hpath in Hnone. now rewrite Hnone. }
  repeat split.
  - intros. unfold create_instance, _create_instance, on_world, and_then, lift,
      run_sync, bind. now rewrite Hopen.
  - intros. unfold run_instance, _run_instance, on_world, and_then, lift.
    now rewrite Hopen.
  - intros. unfold clear_instance, _clear_instance, on_world, and_then, lift,
      run_sync, bind. now rewrite Hopen.
  - intros instance config key value Htyped. unfold set_config, _set_config.
    destruct (value_type value); [| congruence].
    unfold on_world, and_then, lift, run_sync, bind. now rewrite Hopen.
Qed.

End LudusRuns.

Lemma commands_succeed_on_zero_witness :
  fst (Commands.clear_instance Samples.latin1 10 Fixtures.ludus "demo"
         (Fixtures.machine (Fixtures.quiet 3) Fixtures.always))
  = Commands.Done tt.
Proof.
  apply (commands_succeed_on_zero Samples.latin1 10 Fixtures.ludus
           (Fixtures.machine (Fixtures.quiet 3) Fixtures.always)
           "/usr/bin:/bin" 3);
    try reflexivity.
  constructor.
Defined.

Lemma commands_hang_on_failure_witness :
  fst (Commands.set_config Samples.latin1 1000 Fixtures.ludus
         "demo" "train.yml" "epochs" (Commands.CInt 3)
         (Fixtures.machine Samples.failing Fixtures.always))
  = Commands.Hang.
Proof.
  apply (commands_hang_on_failure Samples.latin1 1000 Fixtures.ludus
           (Fixtures.machine Samples.failing Fixtures.always)
           "/usr/bin:/bin" 2);
    try reflexivity; try discriminate.
  repeat constructor. discriminate.
Defined.

Lemma commands_need_path_witness :
  Commands.create_instance Samples.latin1 10 Fixtures.ludus
    (Some "base") (Some "demo") false true Samples.pathless
  = (Commands.Failed (Commands.Uncaught (KeyError "PATH")), Samples.pathless).
Proof.
  apply (commands_need_path Samples.latin1 10 Fixtures.ludus Samples.pathless).
  reflexivity.
Defined.

(** The failing command of the witness, run: the reader's loop is still
    going when the fuel is spent, and the world has moved on to the exit
    of the child. *)
Example failing_command_runs_out :
  fst (Commands.clear_instance Samples.latin1 50 Fixtures.ludus "demo"
         (Fixtures.machine Samples.failing Fixtures.always))
  = Commands.Hang.
Proof. vm_compute. reflexivity. Qed.
